(** * hianime-proxy: the chunked decoder and the response pipeline of worker.js

    A shallow embedding of [src/worker.js]: the [DechunkingStream] transformer
    (a three-state decoder of HTTP/1.1 chunked transfer encoding), the
    [socketFetch] client (request text, reading and parsing of the response
    head, body stream) and the [fetch] handler (referer policy, transport
    selection, response pipeline, playlist rewriting).

    Representation.  A [Uint8Array] is a [list byte].  A JavaScript string is
    the Rocq [string] of its UTF-8 bytes; every string the worker handles
    comes out of a UTF-8 decoder or out of a literal, so it is well formed,
    and the ASCII tests the code makes ([startsWith], [includes], [split],
    the two regular expressions) see the same text on both sides.  A
    JavaScript number that the code uses as a length or index is a [Z], with
    [NaN] kept apart. *)

From Stdlib Require Import ZArith List String Ascii Bool Lia.
From Stdlib Require Import Strings.Byte DecimalString.
Import ListNotations.

Local Open Scope Z_scope.

(** ** Strings *)

Module Str.

Definition chr (n : nat) : ascii := ascii_of_nat n.

Definition LF := chr 10.
Definition CR := chr 13.
Definition DQ := chr 34.
Definition SQ := chr 39.

Definition code (c : ascii) : Z := Z.of_nat (nat_of_ascii c).

(** [String.prototype.startsWith] *)
Fixpoint startsWith (p s : string) : bool :=
  match p with
  | EmptyString => true
  | String a p' =>
      match s with
      | EmptyString => false
      | String b s' => Ascii.eqb a b && startsWith p' s'
      end
  end.

(** [String.prototype.includes] *)
Fixpoint includes (p s : string) : bool :=
  startsWith p s ||
  match s with
  | EmptyString => false
  | String _ s' => includes p s'
  end.

(** [String.prototype.endsWith]; the code never calls it, the
    specification speaks of a suffix. *)
Fixpoint endsWith (p s : string) : bool :=
  String.eqb p s ||
  match s with
  | EmptyString => false
  | String _ s' => endsWith p s'
  end.

(** White space and line terminators of ECMAScript ([String.prototype.trim],
    and the leading white space [parseInt] skips), read on UTF-8 text:
    U+0009..U+000D, U+0020, U+00A0, U+1680, U+2000..U+200A, U+2028, U+2029,
    U+202F, U+205F, U+3000, U+FEFF. *)
Definition ws1 (a : ascii) : bool :=
  let n := code a in ((9 <=? n) && (n <=? 13)) || (n =? 32).

Definition ws2 (a b : ascii) : bool :=
  (code a =? 194) && (code b =? 160).

Definition ws3 (a b c : ascii) : bool :=
  let x := code a in
  let y := code b in
  let z := code c in
  ((x =? 225) && (y =? 154) && (z =? 128))
  || ((x =? 226) && (y =? 128)
      && (((128 <=? z) && (z <=? 138)) || (z =? 168) || (z =? 169) || (z =? 175)))
  || ((x =? 226) && (y =? 129) && (z =? 159))
  || ((x =? 227) && (y =? 128) && (z =? 128))
  || ((x =? 239) && (y =? 187) && (z =? 191)).

(** Removal of leading white space. *)
Fixpoint trimStart (s : string) : string :=
  match s with
  | EmptyString => EmptyString
  | String a r1 =>
      if ws1 a then trimStart r1 else
      match r1 with
      | EmptyString => s
      | String b r2 =>
          if ws2 a b then trimStart r2 else
          match r2 with
          | EmptyString => s
          | String c r3 => if ws3 a b c then trimStart r3 else s
          end
      end
  end.

Fixpoint rev_acc (s acc : string) : string :=
  match s with
  | EmptyString => acc
  | String a r => rev_acc r (String a acc)
  end.

Definition rev (s : string) : string := rev_acc s EmptyString.

(** Removal of leading white space of the reversed text: the multi-byte
    white-space characters are met last byte first. *)
Fixpoint trimStartRev (s : string) : string :=
  match s with
  | EmptyString => EmptyString
  | String a r1 =>
      if ws1 a then trimStartRev r1 else
      match r1 with
      | EmptyString => s
      | String b r2 =>
          if ws2 b a then trimStartRev r2 else
          match r2 with
          | EmptyString => s
          | String c r3 => if ws3 c b a then trimStartRev r3 else s
          end
      end
  end.

Definition trimEnd (s : string) : string := rev (trimStartRev (rev s)).

(** [String.prototype.trim] *)
Definition trim (s : string) : string := trimEnd (trimStart s).

(** [String.prototype.split] on a one-character separator: always at
    least one piece. *)
Fixpoint split (sep : ascii) (s : string) : list string :=
  match s with
  | EmptyString => [EmptyString]
  | String a r =>
      if Ascii.eqb a sep then EmptyString :: split sep r
      else match split sep r with
           | [] => [String a EmptyString]
           | p :: ps => String a p :: ps
           end
  end.

(** [Array.prototype.join] *)
Fixpoint join (sep : string) (l : list string) : string :=
  match l with
  | [] => EmptyString
  | [x] => x
  | x :: r => x ++ sep ++ join sep r
  end.

(** [url.substring(0, url.lastIndexOf(c) + 1)]: the text up to and
    including the last [c], empty when there is none. *)
Fixpoint uptoLast (c : ascii) (s : string) : string :=
  match s with
  | EmptyString => EmptyString
  | String a r =>
      let t := uptoLast c r in
      if Ascii.eqb a c then String a t
      else match t with
           | EmptyString => EmptyString
           | _ => String a t
           end
  end.

Definition isEmpty (s : string) : bool :=
  match s with EmptyString => true | _ => false end.

(** Whether the character [c] occurs in [s]. *)
Fixpoint occurs (c : ascii) (s : string) : bool :=
  match s with
  | EmptyString => false
  | String a r => Ascii.eqb a c || occurs c r
  end.

End Str.

(** ** Numbers: the result of [parseInt] *)

Inductive num : Type :=
| NaN : num
| Num : Z -> num.

Definition isNaN (n : num) : bool :=
  match n with NaN => true | Num _ => false end.

(** [n + 2] *)
Definition plus2 (n : num) : num :=
  match n with NaN => NaN | Num z => Num (z + 2) end.

(** [len < n]; a comparison with [NaN] is false. *)
Definition ltNum (len : Z) (n : num) : bool :=
  match n with NaN => false | Num z => len <? z end.

(** [n === 0] *)
Definition isZero (n : num) : bool :=
  match n with NaN => false | Num z => z =? 0 end.

Module ParseInt.

Import Str.

Definition hexDigit (c : ascii) : option Z :=
  let n := code c in
  if (48 <=? n) && (n <=? 57) then Some (n - 48)
  else if (97 <=? n) && (n <=? 102) then Some (n - 87)
  else if (65 <=? n) && (n <=? 70) then Some (n - 55)
  else None.

(** Value of the longest prefix of hexadecimal digits; [None] when that
    prefix is empty. *)
Fixpoint hexPrefix (s : string) (acc : option Z) : option Z :=
  match s with
  | EmptyString => acc
  | String c r =>
      match hexDigit c with
      | None => acc
      | Some d =>
          hexPrefix r (Some (16 * match acc with Some a => a | None => 0 end + d))
      end
  end.

(** An optional sign, and the text behind it. *)
Definition sign (s : string) : Z * string :=
  match s with
  | String "-"%char r => (-1, r)
  | String "+"%char r => (1, r)
  | _ => (1, s)
  end.

(** An optional [0x] or [0X], which radix 16 allows. *)
Definition stripPrefix (s : string) : string :=
  match s with
  | String "0"%char (String "x"%char r) => r
  | String "0"%char (String "X"%char r) => r
  | _ => s
  end.

(** [parseInt(s, 16)]: leading white space, an optional sign, an optional
    [0x] or [0X], then the longest run of hexadecimal digits; [NaN] when
    that run is empty.  The value is the exact integer: a double rounds it
    beyond 2^53, which no comparison with a buffer length can tell. *)
Definition parseInt16 (s : string) : num :=
  let '(sg, s2) := sign (trimStart s) in
  match hexPrefix (stripPrefix s2) None with
  | None => NaN
  | Some m => Num (sg * m)
  end.

End ParseInt.

(** ** Texts all of whose characters pass a test *)

Module Every.

(** Every character of [s] satisfies [p]. *)
Fixpoint every (p : ascii -> bool) (s : string) : bool :=
  match s with
  | EmptyString => true
  | String c r => p c && every p r
  end.

End Every.

(** ** The UTF-8 decoder of the platform *)

(** [TextDecoder] for UTF-8, as the Encoding standard defines it: a well
    formed sequence is decoded to its code point, every maximal ill-formed
    part to U+FFFD, and a byte-order mark at the very start is dropped.
    The text being kept as its UTF-8 bytes, a well-formed sequence is
    copied and an ill-formed part becomes the three bytes of U+FFFD. *)
Module Utf8.

Local Abbreviation bytes := (list byte).

Definition REPL : bytes := [xef; xbf; xbd].


Definition val (b : byte) : Z := Str.code (ascii_of_byte b).

(** A sequence that has begun: the bytes seen, the number of bytes still
    needed, and the bounds of the next byte. *)
Record Pending : Type := mkPending {
  seen : bytes;
  needed : nat;
  lower : Z;
  upper : Z
}.

(** A byte met when no sequence has begun. *)
Definition start (b : byte) : bytes * option Pending :=
  let n := val b in
  if n <=? 127 then ([b], None)
  else if (194 <=? n) && (n <=? 223) then
    ([], Some (mkPending [b] 1 128 191))
  else if (224 <=? n) && (n <=? 239) then
    ([], Some (mkPending [b] 2 (if n =? 224 then 160 else 128)
                         (if n =? 237 then 159 else 191)))
  else if (240 <=? n) && (n <=? 244) then
    ([], Some (mkPending [b] 3 (if n =? 240 then 144 else 128)
                         (if n =? 244 then 143 else 191)))
  else (REPL, None).

(** The bytes decoded from [bs], and the sequence left unfinished at the
    end.  A byte outside the bounds ends the sequence that has begun,
    which gives U+FFFD, and is then met afresh. *)
Fixpoint run (bs : bytes) (st : option Pending) : bytes * option Pending :=
  match bs with
  | [] => ([], st)
  | b :: r =>
      match st with
      | None =>
          let '(o, st') := start b in
          let '(o', f) := run r st' in (o ++ o', f)
      | Some p =>
          if (lower p <=? val b) && (val b <=? upper p) then
            match needed p with
            | S (S k) => run r (Some (mkPending (seen p ++ [b]) (S k) 128 191))
            | _ => let '(o', f) := run r None in (seen p ++ [b] ++ o', f)
            end
          else
            let '(o, st') := start b in
            let '(o', f) := run r st' in (REPL ++ o ++ o', f)
      end
  end.

Definition stripBOM (o : bytes) : bytes :=
  match o with
  | a :: b :: c :: r =>
      if Byte.eqb a xef && Byte.eqb b xbb && Byte.eqb c xbf then r else o
  | _ => o
  end.

(** [new TextDecoder().decode(bs, { stream })]: with [stream] a sequence
    left unfinished at the end is held back (and lost with the decoder),
    without it the sequence gives U+FFFD. *)
Definition decode (stream : bool) (bs : bytes) : string :=
  let '(o, f) := run bs None in
  let o := match f with
           | Some _ => if stream then o else o ++ REPL
           | None => o
           end in
  string_of_list_byte (stripBOM o).

End Utf8.

(** ** Uint8Array *)

Module U8.

Definition bytes : Type := list byte.

Definition CR : byte := x0d.
Definition LF : byte := x0a.

Definition len (b : bytes) : Z := Z.of_nat (List.length b).

(** An index argument: [NaN] counts as 0. *)
Definition toInteger (n : num) : Z :=
  match n with NaN => 0 | Num z => z end.

(** A negative index counts from the end; every index is clamped to the
    array. *)
Definition relative (l k : Z) : Z :=
  if k <? 0 then Z.max (l + k) 0 else Z.min k l.

(** [Uint8Array.prototype.slice(start, stop)]; [stop] absent means the
    length. *)
Definition slice (b : bytes) (start : num) (stop : option num) : bytes :=
  let l := len b in
  let k := relative l (toInteger start) in
  let final :=
    match stop with
    | None => l
    | Some e => relative l (toInteger e)
    end in
  firstn (Z.to_nat (final - k)) (skipn (Z.to_nat k) b).

Fixpoint indexOfFrom (x : byte) (b : bytes) (i : Z) : Z :=
  match b with
  | [] => -1
  | y :: r => if Byte.eqb y x then i else indexOfFrom x r (i + 1)
  end.

(** [Uint8Array.prototype.indexOf]: -1 when absent. *)
Definition indexOf (b : bytes) (x : byte) : Z := indexOfFrom x b 0.

(** [this.decoder.decode(bytes)], the decoder being a [TextDecoder] for
    UTF-8 that is not used in stream mode: every call decodes from a fresh
    state. *)
Definition decode (b : bytes) : string := Utf8.decode false b.

(** [new TextEncoder().encode(s)] *)
Definition encode (s : string) : bytes := list_byte_of_string s.

End U8.

(** ** The chunked decoder: class DechunkingStream *)

Module DechunkingStream.

Import U8.

Inductive State : Type := size | data | footer.

Record t : Type := mk {
  buffer : bytes;
  state : State;
  chunkSize : num
}.

(** The constructor. *)
Definition new : t := {| buffer := []; state := size; chunkSize := Num 0 |}.

(** The controller of the transform stream, as far as the decoder sees it:
    [emitted] records every chunk given to [enqueue], in order; [errored]
    is set by [error].  Once errored the controller refuses [enqueue]
    (it throws a TypeError). *)
Record Controller : Type := mkController {
  emitted : list bytes;
  errored : option string
}.

Definition fresh : Controller := {| emitted := []; errored := None |}.

Definition enqueue (c : Controller) (chunk : bytes) : option Controller :=
  match errored c with
  | Some _ => None
  | None => Some {| emitted := emitted c ++ [chunk]; errored := None |}
  end.

Definition error (c : Controller) (msg : string) : Controller :=
  match errored c with
  | Some _ => c
  | None => {| emitted := emitted c; errored := Some msg |}
  end.

(** [merge(a, b)] *)
Definition merge (a b : bytes) : bytes := a ++ b.

Inductive Completion : Type :=
| Normal : Completion
| Threw : string -> Completion.

(** What one pass through the body of the [while] loop does. *)
Inductive Flow : Type :=
| Continue : t -> Controller -> Flow
| Break : t -> Controller -> Flow
| Return : t -> Controller -> Flow
| Throw : t -> Controller -> string -> Flow.

Definition body (d : t) (c : Controller) : Flow :=
  match state d with
  | size =>
      let lineEnd := indexOf (buffer d) CR in
      if lineEnd =? -1 then Break d c else
      let sizeStr := decode (slice (buffer d) (Num 0) (Some (Num lineEnd))) in
      let n := ParseInt.parseInt16 sizeStr in
      let b := slice (buffer d) (Num (lineEnd + 2)) None in
      if isNaN n then
        Return {| buffer := b; state := size; chunkSize := n |}
               (error c ("Invalid chunk size: " ++ sizeStr))
      else if isZero n then
        Continue {| buffer := b; state := footer; chunkSize := n |} c
      else
        Continue {| buffer := b; state := data; chunkSize := n |} c
  | data =>
      if ltNum (len (buffer d)) (chunkSize d) then Break d c else
      match enqueue c (slice (buffer d) (Num 0) (Some (chunkSize d))) with
      | None => Throw d c "TypeError"
      | Some c' =>
          Continue {| buffer := slice (buffer d) (plus2 (chunkSize d)) None;
                      state := size;
                      chunkSize := chunkSize d |} c'
      end
  | footer =>
      let lineEnd := indexOf (buffer d) CR in
      if lineEnd =? -1 then Break d c else
      let b := slice (buffer d) (Num (lineEnd + 2)) None in
      Continue {| buffer := if lineEnd =? 0 then [] else b;
                  state := footer;
                  chunkSize := chunkSize d |} c
  end.

(** [while (this.buffer.length > 0) { ... }], with the number of passes
    bounded by [fuel]; [None] when the bound is reached. *)
Fixpoint loop (fuel : nat) (d : t) (c : Controller)
  : option (t * Controller * Completion) :=
  if 0 <? len (buffer d) then
    match fuel with
    | O => None
    | S fuel' =>
        match body d c with
        | Continue d' c' => loop fuel' d' c'
        | Break d' c' => Some (d', c', Normal)
        | Return d' c' => Some (d', c', Normal)
        | Throw d' c' m => Some (d', c', Threw m)
        end
    end
  else Some (d, c, Normal).

(** A pass in state [size] or [footer] that continues shortens the
    buffer; a pass in state [data] does not lengthen it and leaves state
    [data].  So twice the length, plus one in state [data], bounds the
    number of passes. *)
Definition passes (d : t) : nat :=
  (2 * List.length (buffer d) + match state d with data => 1 | _ => 0 end)%nat.

(** [transform(chunk, controller)] *)
Definition transform (d : t) (chunk : bytes) (c : Controller)
  : t * Controller * Completion :=
  let d0 := {| buffer := merge (buffer d) chunk;
               state := state d;
               chunkSize := chunkSize d |} in
  match loop (S (passes d0)) d0 c with
  | Some r => r
  | None => (d0, c, Normal)
  end.

(** The transform stream driving the decoder: each written chunk is given
    to [transform] as long as the stream is not errored; an exception out
    of [transform] errors the stream. *)
Fixpoint pipe (chunks : list bytes) (d : t) (c : Controller) : t * Controller :=
  match chunks with
  | [] => (d, c)
  | chunk :: rest =>
      match errored c with
      | Some _ => (d, c)
      | None =>
          match transform d chunk c with
          | (d', c', Normal) => pipe rest d' c'
          | (d', c', Threw m) => (d', error c' m)
          end
      end
  end.

(** Everything the decoder emitted, as one byte sequence. *)
Definition output (c : Controller) : bytes := List.concat (emitted c).


(** What the reader of the transform stream is given, which is not all
    that was enqueued.  The readable side has a high-water mark of zero,
    so [transform] is called for a written chunk only while a read is
    waiting, and a read waits only when the queue is empty: the chunks of
    the calls before have all been read.  The first chunk enqueued during
    a call answers the waiting read and the others are queued.  [error]
    (as an exception out of [transform]) empties the queue: of the chunks
    enqueued during the call that errors the stream the reader has the
    first, and the others are lost.  The reader asks for one chunk at a
    time.  The result is the decoder after the last call made, the chunks
    the reader is given, and the error of the stream if there is one. *)
Fixpoint deliver (chunks : list bytes) (d : t) : t * list bytes * option string :=
  match chunks with
  | [] => (d, [], None)
  | chunk :: rest =>
      match transform d chunk fresh with
      | (d', c', Normal) =>
          match errored c' with
          | Some m => (d', firstn 1 (emitted c'), Some m)
          | None =>
              let '(d'', out, e) := deliver rest d' in
              (d'', emitted c' ++ out, e)
          end
      | (d', c', Threw m) => (d', firstn 1 (emitted c'), errored (error c' m))
      end
  end.

(** The same when the source of the writes fails with [m] after its last
    chunk.  The pipe into the transform stream lets the writes it has read
    finish and then aborts the stream, which empties the queue: the reader
    loses the [unread] chunks it has not read by then.  They are chunks of
    the last write, the first of which it always has. *)
Definition deliverFailing (unread : nat) (chunks : list bytes) (d : t) (m : string)
  : list bytes * option string :=
  match rev chunks with
  | [] => ([], Some m)
  | lastChunk :: earlier =>
      let '(d', out, e) := deliver (rev earlier) d in
      match e with
      | Some m' => (out, Some m')
      | None =>
          let '(_, out', e') := deliver [lastChunk] d' in
          match e' with
          | Some m' => (out ++ out', Some m')
          | None =>
              (out ++ firstn (Nat.max 1 (List.length out' - unread)) out', Some m)
          end
      end
  end.

End DechunkingStream.

(** ** Percent-encoding *)

Module Uri.

Import Str.

Definition isAlnum (c : ascii) : bool :=
  let n := code c in
  ((48 <=? n) && (n <=? 57)) || ((65 <=? n) && (n <=? 90))
  || ((97 <=? n) && (n <=? 122)).

(** The characters [encodeURIComponent] leaves as they are:
    letters, digits and [- _ . ! ~ * ' ( )]. *)
Definition unescaped (c : ascii) : bool :=
  let n := code c in
  isAlnum c
  || (n =? 45) || (n =? 95) || (n =? 46) || (n =? 33) || (n =? 126)
  || (n =? 42) || (n =? 39) || (n =? 40) || (n =? 41).

Definition hexChar (n : Z) : ascii :=
  if n <? 10 then ascii_of_nat (Z.to_nat (48 + n))
  else ascii_of_nat (Z.to_nat (55 + n)).

(** [encodeURIComponent]: every other byte of the UTF-8 text becomes
    [%XX], in upper-case hexadecimal.  (It throws on a lone surrogate,
    which a well-formed string has not.) *)
Fixpoint encodeURIComponent (s : string) : string :=
  match s with
  | EmptyString => EmptyString
  | String c r =>
      if unescaped c then String c (encodeURIComponent r)
      else String "%"%char
             (String (hexChar (code c / 16))
                (String (hexChar (code c mod 16)) (encodeURIComponent r)))
  end.

(** Decoding of one component of a query string, as [URLSearchParams]
    does it: [+] is a space, [%XX] is the byte [XX], a [%] not followed by
    two hexadecimal digits stays. *)
Fixpoint formDecode (s : string) : string :=
  match s with
  | EmptyString => EmptyString
  | String c r =>
      if Ascii.eqb c "+"%char then String " "%char (formDecode r)
      else if Ascii.eqb c "%"%char then
        match r with
        | String h (String l r') =>
            match ParseInt.hexDigit h, ParseInt.hexDigit l with
            | Some x, Some y =>
                String (ascii_of_nat (Z.to_nat (16 * x + y))) (formDecode r')
            | _, _ => String c (formDecode r)
            end
        | _ => String c (formDecode r)
        end
      else String c (formDecode r)
  end.

(** The text of [s] up to the first [c], and what follows that [c]. *)
Fixpoint cut (c : ascii) (s : string) : string * option string :=
  match s with
  | EmptyString => (EmptyString, None)
  | String a r =>
      if Ascii.eqb a c then (EmptyString, Some r)
      else let '(x, y) := cut c r in (String a x, y)
  end.

(** The query of a URL text: what stands between the first [?] and the
    first [#] after it. *)
Definition queryOf (u : string) : string :=
  match snd (cut "?"%char (fst (cut "#"%char u))) with
  | Some q => q
  | None => EmptyString
  end.

(** [URLSearchParams.prototype.get]: the decoded value of the first
    [name=value] pair with that name. *)
Fixpoint lookup (name : string) (pairs : list string) : option string :=
  match pairs with
  | [] => None
  | p :: rest =>
      if isEmpty p then lookup name rest else
      let '(n, v) := cut "="%char p in
      if String.eqb (formDecode n) name
      then Some (formDecode (match v with Some v' => v' | None => EmptyString end))
      else lookup name rest
  end.

Definition searchParams_get (u name : string) : option string :=
  lookup name (split "&"%char (queryOf u)).

End Uri.

(** ** Header lists *)

Module Headers.

Definition t : Type := list (string * string).

Definition lowerChar (c : ascii) : ascii :=
  let n := Str.code c in
  if (65 <=? n) && (n <=? 90) then ascii_of_nat (Z.to_nat (n + 32)) else c.

Fixpoint lower (s : string) : string :=
  match s with
  | EmptyString => EmptyString
  | String c r => String (lowerChar c) (lower r)
  end.

(** Header names match without regard to case. *)
Definition same (a b : string) : bool := String.eqb (lower a) (lower b).

Definition named (name : string) (h : string * string) : bool :=
  same (fst h) name.

Definition has (h : t) (name : string) : bool :=
  existsb (named name) h.

(** [get]: the values of all headers of that name, joined by a comma and
    a space; [None] for [null]. *)
Definition get (h : t) (name : string) : option string :=
  match filter (named name) h with
  | [] => None
  | l => Some (Str.join ", " (map snd l))
  end.

(** [delete] *)
Definition delete (h : t) (name : string) : t :=
  filter (fun x => negb (named name x)) h.

Fixpoint setFirst (h : t) (name value : string) : t :=
  match h with
  | [] => []
  | x :: r =>
      if named name x then (fst x, value) :: delete r name
      else x :: setFirst r name value
  end.

(** [set]: the first header of that name takes the value and the others
    go; a new name is appended. *)
Definition set (h : t) (name value : string) : t :=
  if has h name then setFirst h name value else h ++ [(name, value)].

End Headers.

(** ** The platform *)

(** The outcome of an expression that can throw; [Throws m] carries
    [error.message]. *)
Inductive Result (A : Type) : Type :=
| Ok : A -> Result A
| Throws : string -> Result A.

Arguments Ok {A} _.
Arguments Throws {A} _.

(** What the worker reads of a parsed [URL]. *)
Record URL : Type := mkURL {
  hostname : string;
  port : string;
  pathname : string;
  origin : string
}.

Inductive Transport : Type := NATIVE | RAW_SOCKET.

Module Worker.

Import Str.
Local Open Scope string_scope.

Section Platform.

(** A [ReadableStream]. *)
Variable Stream : Type.

(** [new URL(text)], which throws on a text that is no absolute URL. *)
Variable parseURL : string -> Result URL.

(** [await new Response(body).text()]: the whole body as text; it
    rejects when the stream errors. *)
Variable text : option Stream -> Result string.

(** What [socketFetch] returns. *)
Record SocketResponse : Type := mkSocketResponse {
  s_status : Z;
  s_headers : Headers.t;
  s_body : Stream
}.

(** What the platform's [fetch] returns, as far as the worker reads
    it. *)
Record NativeResponse : Type := mkNativeResponse {
  n_status : Z;
  n_headers : Headers.t;
  n_ok : bool;
  n_body : option Stream
}.

(** The handler sees of [socketFetch(url, { headers })] its result, or the
    exception it raises; both are given here by the environment.  The
    function itself, with its exchange over the socket, is the subject of
    the module [Socket] below. *)
Variable socketFetch : string -> list (string * string) -> Result SocketResponse.

(** The platform's [fetch(url, { method, headers, redirect })]. *)
Variable globalFetch : string -> list (string * string) -> Result NativeResponse.

(** The inbound request: its method, the two query parameters of its
    URL, the two headers the worker forwards, and the origin and path
    of its URL. *)
Record Request : Type := mkRequest {
  method : string;
  param_url : option string;
  param_referer : option string;
  header_Range : option string;
  header_XRequestedWith : option string;
  urlObj_origin : string;
  urlObj_pathname : string
}.

Inductive Body : Type :=
| NoBody : Body                     (* [null] *)
| Text : string -> Body             (* a string *)
| Streamed : Stream -> Body         (* a stream, handed on as it is *)
| ErrorJson : string -> Body.       (* [JSON.stringify({ error: message })] *)

Record Response : Type := mkResponse {
  status : Z;
  headers : Headers.t;
  body : Body
}.

Definition nullBodyStatus (s : Z) : bool :=
  ((s =? 101) || (s =? 103) || (s =? 204) || (s =? 205) || (s =? 304))%Z.

(** A body that is a string. *)
Definition isString (b : Body) : bool :=
  match b with
  | Text _ | ErrorJson _ => true
  | _ => false
  end.

(** The header the constructor adds for a string body when the headers
    it is given name no content type. *)
Definition textType : string * string :=
  ("content-type", "text/plain;charset=UTF-8").

Definition withType (b : Body) (h : Headers.t) : Headers.t :=
  if isString b && negb (Headers.has h "Content-Type")
  then (h ++ [textType])%list
  else h.

(** [new Response(body, { status, headers })] on the worker's platform.
    The constructor throws a RangeError for a status outside 200..599.  On
    a null-body status (204, 205 and 304 in that range) it lets no body
    and a body of length zero pass, the response then having no body, and
    throws a TypeError for any other body; a stream made by the worker has
    no length known to it.  Otherwise the response has the body, and a
    string body brings its content type where none is given. *)
Definition Response_new (b : Body) (s : Z) (h : Headers.t) : Result Response :=
  if ((s <? 200) || (599 <? s))%Z then
    Throws "Responses may only be constructed with status codes in the range 200 to 599, inclusive."
  else if nullBodyStatus s then
    match b with
    | NoBody | Text EmptyString => Ok {| status := s; headers := h; body := NoBody |}
    | _ =>
        Throws "Response with null body status (101, 204, 205, or 304) cannot have a body."
    end
  else Ok {| status := s; headers := withType b h; body := b |}.

(** A value used as a condition: [null] and the empty string are
    false. *)
Definition truthy (o : option string) : bool :=
  match o with
  | Some s => negb (isEmpty s)
  | None => false
  end.

(** [o || d] *)
Definition orElse (o : option string) (d : string) : string :=
  match o with
  | Some s => if isEmpty s then d else s
  | None => d
  end.

(** *** The referer policy *)

Definition isLowerHex (c : ascii) : bool :=
  let n := code c in
  (((48 <=? n) && (n <=? 57)) || ((97 <=? n) && (n <=? 102)))%Z.

(** The longest prefix of characters satisfying [p], and the rest. *)
Fixpoint span (p : ascii -> bool) (s : string) : string * string :=
  match s with
  | EmptyString => (EmptyString, EmptyString)
  | String c r =>
      if p c then let '(x, y) := span p r in (String c x, y)
      else (EmptyString, s)
  end.

(** [urlPath.match(/\/([a-f0-9]{64,})\//)]: the group of the leftmost
    match.  At a given [/] the group is the whole run of hexadecimal
    characters, which must count 64 at least and be followed by [/]. *)
Fixpoint videoIdMatch (s : string) : option string :=
  match s with
  | EmptyString => None
  | String c r =>
      if Ascii.eqb c "/"%char then
        let '(run, rest) := span isLowerHex r in
        if (64 <=? Z.of_nat (String.length run))%Z && startsWith "/" rest
        then Some run
        else videoIdMatch r
      else videoIdMatch r
  end.

Definition targetRefererOf (referer : option string) (targetUrl : URL) : string :=
  let targetReferer := orElse referer "https://megacloud.tv/" in
  if String.eqb (hostname targetUrl) "cdn.dotstream.buzz" then
    "https://megaplay.buzz/"
  else if String.eqb targetReferer "https://megacloud.tv"
          || String.eqb targetReferer "https://megacloud.tv/" then
    match videoIdMatch (pathname targetUrl) with
    | Some id => "https://megacloud.tv/embed-2/e-1/" ++ id
    | None => "https://megacloud.tv/embed-2/e-1/"
    end
  else targetReferer.

(** *** The upstream request *)

Definition q (s : string) : string := String DQ s ++ String DQ "".

Definition headersMap (targetReferer : string) (req : Request)
  : list (string * string) :=
  [ ("User-Agent", "Mozilla/5.0 (Windows NT 10.0; Win64; x64) AppleWebKit/537.36 (KHTML, like Gecko) Chrome/131.0.0.0 Safari/537.36");
    ("Accept", "*/*");
    ("Accept-Language", "en-US,en;q=0.9");
    ("Accept-Encoding", "identity");
    ("Referer", targetReferer);
    ("Sec-Fetch-Dest", "empty");
    ("Sec-Fetch-Mode", "cors");
    ("Sec-Fetch-Site", "cross-site");
    ("Sec-Ch-Ua", q "Google Chrome" ++ ";v=" ++ q "131" ++ ", "
                  ++ q "Chromium" ++ ";v=" ++ q "131" ++ ", "
                  ++ q "Not_A Brand" ++ ";v=" ++ q "24");
    ("Sec-Ch-Ua-Mobile", "?0");
    ("Sec-Ch-Ua-Platform", q "Windows") ]
  ++ (if truthy (header_Range req)
      then [("Range", orElse (header_Range req) "")] else [])
  ++ (if truthy (header_XRequestedWith req)
      then [("X-Requested-With", orElse (header_XRequestedWith req) "")] else []).

(** *** The transport selector *)

Definition needsSocketFetch (url : string) (targetUrl : URL) : bool :=
  let isNonStandardPort := includes ":2228" url in
  isNonStandardPort
  || includes "haildrop" (hostname targetUrl)
  || includes "douvid" (hostname targetUrl)
  || includes "lightningspark" (hostname targetUrl)
  || includes "sunburst" (hostname targetUrl)
  || includes "sunshinerays" (hostname targetUrl)
  || includes "rainveil" (hostname targetUrl)
  || includes "fogtwist" (hostname targetUrl)
  || includes "stormshade" (hostname targetUrl)
  || includes "netmagcdn" (hostname targetUrl).

Definition select (url : string) (targetUrl : URL) : Transport :=
  if needsSocketFetch url targetUrl then RAW_SOCKET else NATIVE.

(** The [response] object built from either transport. *)
Record Upstream : Type := mkUpstream {
  u_status : Z;
  u_headers : Headers.t;
  u_ok : bool;
  u_body : option Stream
}.

Definition ofSocket (s : SocketResponse) : Upstream :=
  {| u_status := s_status s;
     u_headers := s_headers s;
     u_ok := (((200 <=? s_status s) && (s_status s <? 300)) || (s_status s =? 206))%Z;
     u_body := Some (s_body s) |}.

Definition ofNative (r : NativeResponse) : Upstream :=
  {| u_status := n_status r;
     u_headers := n_headers r;
     u_ok := n_ok r;
     u_body := n_body r |}.

(** *** The manifest rewriter *)

(** The resolution [proxyLine] makes before it wraps the URL.  The
    origin is that of [new URL(url)], which line 173 already parsed. *)
Definition resolve (url basePath : string) (targetUrl : URL) (line : string) : string :=
  if negb (startsWith "http" line) then
    if startsWith "/" line then origin targetUrl ++ line
    else basePath ++ line
  else line.

Definition proxyLine (workerUrl url basePath targetReferer : string)
           (targetUrl : URL) (line : string) : string :=
  let fullUrl := resolve url basePath targetUrl line in
  workerUrl ++ "?url=" ++ Uri.encodeURIComponent fullUrl
            ++ "&referer=" ++ Uri.encodeURIComponent targetReferer.

Definition isQuote (c : ascii) : bool := Ascii.eqb c DQ || Ascii.eqb c SQ.

(** A match, at the very start of [s], of the regular expression of
    line 293: the four characters URI=, a quote (double or single), one
    or more characters that are no quote, a quote.  The result is the
    group (the characters between the quotes) and what follows the
    match. *)
Definition matchUriHere (s : string) : option (string * string) :=
  match s with
  | String "U" (String "R" (String "I" (String "=" (String o r)))) =>
      if isQuote o then
        match span (fun c => negb (isQuote c)) r with
        | (String a u, String _ rest) => Some (String a u, rest)
        | _ => None
        end
      else None
  | _ => None
  end.

(** [s.replace(re, (match, uri) => ...)] for that expression: the
    leftmost match is replaced by URI=, a double quote, [f uri] and a
    double quote; the rest is kept. *)
Fixpoint replaceUri (f : string -> string) (s : string) : string :=
  match matchUriHere s with
  | Some (uri, rest) => "URI=" ++ q (f uri) ++ rest
  | None =>
      match s with
      | EmptyString => EmptyString
      | String c r => String c (replaceUri f r)
      end
  end.

Definition rewriteLine (proxy : string -> string) (line : string) : string :=
  let trimmedLine := trim line in
  if isEmpty trimmedLine then line
  else if startsWith "#" trimmedLine then replaceUri proxy trimmedLine
  else proxy trimmedLine.

Definition rewriteManifest (workerUrl url targetReferer : string)
           (targetUrl : URL) (manifestText : string) : string :=
  let basePath := uptoLast "/"%char url in
  let lines := split LF manifestText in
  let newLines :=
    map (rewriteLine (proxyLine workerUrl url basePath targetReferer targetUrl))
        lines in
  join (String LF "") newLines.

(** *** The response pipeline (lines 253 to 310) *)

Definition showStatus (s : Z) : string :=
  DecimalString.NilZero.string_of_int (Z.to_int s).

Definition passthrough (b : option Stream) : Body :=
  match b with
  | Some s => Streamed s
  | None => NoBody
  end.

Definition isPlaylist (contentType url : string) : bool :=
  includes "mpegurl" contentType || includes ".m3u8" url.

Definition pipeline (req : Request) (url targetReferer : string)
           (targetUrl : URL) (response : Upstream) : Result Response :=
  let responseHeaders := u_headers response in
  let responseHeaders := Headers.set responseHeaders "Access-Control-Allow-Origin" "*" in
  let responseHeaders := Headers.set responseHeaders "X-Proxy-Version" "1.2.1-no-origin" in
  if negb (u_ok response) && negb (u_status response =? 206)%Z then
    Response_new (Text ("Upstream error " ++ showStatus (u_status response)))
                 (u_status response) responseHeaders
  else
    let responseHeaders := Headers.delete responseHeaders "Content-Security-Policy" in
    let responseHeaders := Headers.delete responseHeaders "X-Frame-Options" in
    let contentType := orElse (Headers.get responseHeaders "content-type") "" in
    if isPlaylist contentType url then
      match text (u_body response) with
      | Throws m => Throws m
      | Ok manifestText =>
          let workerUrl := urlObj_origin req ++ urlObj_pathname req in
          Response_new
            (Text (rewriteManifest workerUrl url targetReferer targetUrl manifestText))
            (u_status response) responseHeaders
      end
    else
      Response_new (passthrough (u_body response)) (u_status response) responseHeaders.

(** *** The handler *)

(** A request the worker made upstream. *)
Record Call : Type := mkCall {
  transport : Transport;
  target : string;
  sent : list (string * string)
}.

Definition preflight : Response :=
  {| status := 204;
     headers :=
       [ ("Access-Control-Allow-Origin", "*");
         ("Access-Control-Allow-Methods", "GET, OPTIONS");
         ("Access-Control-Allow-Headers", "Range, Content-Type, Accept, Accept-Encoding");
         ("Access-Control-Expose-Headers", "Content-Length, Content-Range, Accept-Ranges, Cache-Control");
         ("Access-Control-Max-Age", "86400") ];
     body := NoBody |}.

(** Lines 164 to 167: the constructor adds the content type of the
    string body to the one header given. *)
Definition missingUrl : Response :=
  {| status := 400;
     headers := withType (Text "URL parameter is required")
                         [ ("Access-Control-Allow-Origin", "*") ];
     body := Text "URL parameter is required" |}.

Definition internalError (message : string) : Response :=
  {| status := 500;
     headers := [ ("Content-Type", "application/json");
                  ("Access-Control-Allow-Origin", "*") ];
     body := ErrorJson message |}.

(** Lines 231 to 251: the request goes out over the selected transport,
    and [response] is built from what comes back. *)
Definition upstream (url : string) (targetUrl : URL)
           (hm : list (string * string)) : Result Upstream :=
  if needsSocketFetch url targetUrl then
    match socketFetch url hm with
    | Ok sRes => Ok (ofSocket sRes)
    | Throws m => Throws m
    end
  else
    match globalFetch url hm with
    | Ok res => Ok (ofNative res)
    | Throws m => Throws m
    end.

(** The [try] block: the upstream calls it made, and its response or
    the exception that left it. *)
Definition tryBlock (req : Request) (url : string) : list Call * Result Response :=
  match parseURL url with
  | Throws m => ([], Throws m)
  | Ok targetUrl =>
      let targetReferer := targetRefererOf (param_referer req) targetUrl in
      match parseURL targetReferer with
      | Throws m => ([], Throws m)
      | Ok _ =>
          let hm := headersMap targetReferer req in
          let call := {| transport := select url targetUrl;
                         target := url; sent := hm |} in
          match upstream url targetUrl hm with
          | Throws m => ([call], Throws m)
          | Ok response =>
              ([call], pipeline req url targetReferer targetUrl response)
          end
      end
  end.

(** [fetch(request, env, ctx)]: the upstream calls made and the response
    returned. *)
Definition fetch (req : Request) : list Call * Response :=
  if String.eqb (method req) "OPTIONS" then ([], preflight)
  else if negb (truthy (param_url req)) then ([], missingUrl)
  else
    let url := orElse (param_url req) "" in
    match tryBlock req url with
    | (calls, Ok r) => (calls, r)
    | (calls, Throws m) => (calls, internalError m)
    end.

End Platform.

End Worker.

(** ** A platform for the examples *)

(** An instance of the platform on which the theorems below are tried: a
    stream is the text it will deliver, and [parse] reads a URL of the plain
    shape scheme://host[:port][/path][?query][#fragment] the way [new URL]
    does (for such a text: scheme and host are put in lower case, the
    default port of the scheme is dropped, an empty path is [/]). *)
Module Demo.

Import Str.
Local Open Scope string_scope.

Definition Stream : Type := string.

Definition oneOf (set : string) (c : ascii) : bool :=
  includes (String c "") set.

Definition parse (u : string) : Result URL :=
  match Uri.cut ":"%char u with
  | (scheme, Some (String "/" (String "/" r))) =>
      let scheme := Headers.lower scheme in
      let '(authority, tail) := Worker.span (fun c => negb (oneOf "/?#" c)) r in
      let '(path, _) := Worker.span (fun c => negb (oneOf "?#" c)) tail in
      let '(host, p) := Uri.cut ":"%char authority in
      let host := Headers.lower host in
      let portText := match p with Some x => x | None => "" end in
      let port :=
        if (String.eqb scheme "https" && String.eqb portText "443")
           || (String.eqb scheme "http" && String.eqb portText "80")
        then "" else portText in
      if isEmpty host || isEmpty scheme then Throws "Invalid URL"
      else Ok {| hostname := host;
                 port := port;
                 pathname := if isEmpty path then "/" else path;
                 origin := scheme ++ "://" ++ host
                           ++ (if isEmpty port then "" else ":" ++ port) |}
  | _ => Throws "Invalid URL"
  end.

Definition text (b : option Stream) : Result string :=
  match b with
  | Some s => Ok s
  | None => Ok ""
  end.

(** An upstream that answers every request over either transport with the
    given status, headers and body. *)
Definition socketAnswers (s : Z) (h : Headers.t) (b : string)
  : string -> list (string * string) -> Result (Worker.SocketResponse Stream) :=
  fun _ _ => Ok (Worker.mkSocketResponse Stream s h b).

Definition nativeAnswers (s : Z) (h : Headers.t) (b : string)
  : string -> list (string * string) -> Result (Worker.NativeResponse Stream) :=
  fun _ _ =>
    Ok (Worker.mkNativeResponse Stream s h ((200 <=? s) && (s <? 300))%Z (Some b)).

Definition fetch (s : Z) (h : Headers.t) (b : string) (req : Worker.Request)
  : list (Worker.Call) * Worker.Response Stream :=
  Worker.fetch Stream parse text (socketAnswers s h b) (nativeAnswers s h b) req.

Definition get (url : string) (referer : option string) : Worker.Request :=
  Worker.mkRequest "GET" (Some url) referer None None
                   "https://proxy.example" "/proxy".

Definition lines (l : list string) : string := join (String LF "") l.

(** The manifest of the examples and what the platform reads of its
    URL; the URL of the worker; the referer the handler settles on when
    the request names none. *)
Definition manifestUrl : string := "https://cdn.example/show/index.m3u8".

Definition manifestTarget : URL :=
  {| hostname := "cdn.example"; port := "";
     pathname := "/show/index.m3u8"; origin := "https://cdn.example" |}.

Definition workerUrl : string := "https://proxy.example/proxy".

Definition embed : string := "https://megacloud.tv/embed-2/e-1/".

(** Bytes of a text, and the line end of the chunked encoding. *)
Definition b (s : string) : U8.bytes := U8.encode s.

Definition crlf : U8.bytes := [U8.CR; U8.LF].

End Demo.

(** ** Words of the claims *)

(** What the claims are stated with: the list of host names and the header
    lists at two places of the handler, which are parts of the code given a
    name; and the absolute URI, which the specification speaks of and the
    code tests by a prefix. *)
Module Spec.

Import Str.
Local Open Scope string_scope.

(** The host names of the transport selector, as the code lists them. *)
Definition denylist : list string :=
  [ "haildrop"; "douvid"; "lightningspark"; "sunburst"; "sunshinerays";
    "rainveil"; "fogtwist"; "stormshade"; "netmagcdn" ].

Definition isAlpha (c : ascii) : bool :=
  let n := code c in
  (((65 <=? n) && (n <=? 90)) || ((97 <=? n) && (n <=? 122)))%Z.

Definition isSchemeChar (c : ascii) : bool :=
  Uri.isAlnum c || Ascii.eqb c "+" || Ascii.eqb c "-" || Ascii.eqb c ".".

(** An absolute URI (RFC 3986): it begins with a scheme, a letter
    followed by letters, digits, [+], [-] or [.], and a colon. *)
Definition isAbsoluteURI (s : string) : bool :=
  match s with
  | EmptyString => false
  | String c r =>
      isAlpha c &&
      match Worker.span isSchemeChar r with
      | (_, String d _) => Ascii.eqb d ":"
      | _ => false
      end
  end.

(** The header list after lines 253 to 255 of the handler. *)
Definition marked (h : Headers.t) : Headers.t :=
  Headers.set (Headers.set h "Access-Control-Allow-Origin" "*")
              "X-Proxy-Version" "1.2.1-no-origin".

(** The header list after lines 264 and 265. *)
Definition stripped (h : Headers.t) : Headers.t :=
  Headers.delete (Headers.delete (marked h) "Content-Security-Policy")
                 "X-Frame-Options".

(** The test of line 257: the upstream answer is no success. *)
Definition failed (Stream : Type) (up : Worker.Upstream Stream) : bool :=
  negb (Worker.u_ok Stream up) && negb (Worker.u_status Stream up =? 206)%Z.

End Spec.

(** ** The chunked encoding *)

(** Following the specification (glossary): the body is sent as units of
    size line, payload and CRLF, and ends with a zero-size chunk and an
    empty line.  This is the encoder the decoder is measured against; the
    source has none. *)
Module Chunked.

Fixpoint hexDigits (fuel : nat) (n : Z) (acc : string) : string :=
  match fuel with
  | O => acc
  | S f =>
      let acc' := String (Uri.hexChar (n mod 16)) acc in
      if n / 16 =? 0 then acc' else hexDigits f (n / 16) acc'
  end.

Definition toHex (n : Z) : string := hexDigits (S (Z.to_nat n)) n EmptyString.

(** A number written in hexadecimal: one digit or more, and nothing
    else. *)
Definition hexadecimal (s : string) : bool :=
  negb (Str.isEmpty s)
  && Every.every (fun c => match ParseInt.hexDigit c with
                           | Some _ => true
                           | None => false
                           end) s.

Definition chunk (payload : U8.bytes) : U8.bytes :=
  U8.encode (toHex (U8.len payload)) ++ Demo.crlf ++ payload ++ Demo.crlf.

(** The units of a list of payloads, one after the other. *)
Definition units (payloads : list U8.bytes) : U8.bytes :=
  List.concat (map chunk payloads).

(** The zero-size chunk and the empty line that end a body. *)
Definition terminator : U8.bytes := Demo.b "0" ++ Demo.crlf ++ Demo.crlf.

Definition encode (payloads : list U8.bytes) : U8.bytes :=
  units payloads ++ terminator.

End Chunked.

(** ** Numbers and objects of JavaScript *)

Module Js.

Import Str.

Definition decDigit (c : ascii) : option Z :=
  let n := code c in
  if (48 <=? n) && (n <=? 57) then Some (n - 48) else None.

(** Value of the longest prefix of decimal digits; [None] when that prefix
    is empty. *)
Fixpoint decPrefix (s : string) (acc : option Z) : option Z :=
  match s with
  | EmptyString => acc
  | String c r =>
      match decDigit c with
      | None => acc
      | Some d =>
          decPrefix r (Some (10 * match acc with Some a => a | None => 0 end + d))
      end
  end.

(** [parseInt(s)] without a radix: leading white space, an optional sign,
    then hexadecimal digits after [0x] or [0X] and decimal digits
    otherwise; [NaN] when there is no digit.  The value is the exact
    integer, which a double is up to 2^53: the ports and the status codes
    the properties below speak of are under that bound. *)
Definition parseInt (s : string) : num :=
  let '(sg, s2) := ParseInt.sign (trimStart s) in
  match s2 with
  | String "0"%char (String "x"%char r)
  | String "0"%char (String "X"%char r) =>
      match ParseInt.hexPrefix r None with
      | None => NaN
      | Some m => Num (sg * m)
      end
  | _ =>
      match decPrefix s2 None with
      | None => NaN
      | Some m => Num (sg * m)
      end
  end.

(** [n || d] for numbers: [NaN] and zero are false. *)
Definition orNum (n : num) (d : Z) : Z :=
  match n with
  | NaN => d
  | Num z => if z =? 0 then d else z
  end.

(** An object with string values, as the list of its own properties. *)
Definition object : Type := list (string * string).

(** [o[k]]: [None] for [undefined]. *)
Fixpoint prop (o : object) (k : string) : option string :=
  match o with
  | [] => None
  | (k', v) :: r => if String.eqb k' k then Some v else prop r k
  end.

(** [o[k] = v] on an own property or a new name: the value of an own
    property is replaced where it stands, a new property comes last. *)
Fixpoint assign (o : object) (k v : string) : object :=
  match o with
  | [] => [(k, v)]
  | (k', v') :: r =>
      if String.eqb k' k then (k', v) :: r else (k', v') :: assign r k v
  end.

(** [o[k] = v] for any [k]: the name [__proto__] is an accessor of the
    prototype, which lets a string pass and defines no property. *)
Definition setProp (o : object) (k v : string) : object :=
  if String.eqb k "__proto__" then o else assign o k v.

(** [delete o[k]] *)
Definition deleteProp (o : object) (k : string) : object :=
  filter (fun kv => negb (String.eqb (fst kv) k)) o.

(** [if (!o[k]) o[k] = v], for a name that is no accessor. *)
Definition setDefault (o : object) (k v : string) : object :=
  match prop o k with
  | Some x => if isEmpty x then assign o k v else o
  | None => assign o k v
  end.

End Js.

(** ** The raw-socket client: socketFetch *)

Module Socket.

Import Str U8.
Local Open Scope string_scope.

(** What [socketFetch] reads of [new URL(url)]. *)
Record Target : Type := mkTarget {
  hostname : string;
  port : string;
  protocol : string;
  pathname : string;
  search : string;
  host : string
}.

(** What comes over the socket once the request is written: the values of
    the successive reads, and then either the end ([done]) or a read that
    fails with a message. *)
Record Wire : Type := mkWire {
  reads : list bytes;
  failure : option string
}.

(** A stream of bytes as its reader meets it: the chunks it is given, in
    order, then the end or an error. *)
Record ByteStream : Type := mkByteStream {
  chunks : list bytes;
  ending : option string
}.

Definition CRLF : string := String Str.CR (String Str.LF "").

Definition CRLF2 : string := CRLF ++ CRLF.

(** [s.substring(0, s.indexOf(pat))], and [None] when [indexOf] is -1. *)
Fixpoint before (pat s : string) : option string :=
  if startsWith pat s then Some ""
  else match s with
       | EmptyString => None
       | String c r =>
           match before pat r with
           | Some x => Some (String c x)
           | None => None
           end
       end.

Definition consHead (c : ascii) (l : list string) : list string :=
  match l with
  | [] => [String c ""]
  | x :: r => String c x :: r
  end.

(** [s.split(CRLF)] *)
Fixpoint splitCRLF (s : string) : list string :=
  match s with
  | EmptyString => [""]
  | String a r =>
      match r with
      | String b r' =>
          if Ascii.eqb a Str.CR && Ascii.eqb b Str.LF
          then "" :: splitCRLF r'
          else consHead a (splitCRLF r)
      | EmptyString => [String a ""]
      end
  end.

(** [pipeThrough(new TransformStream(new DechunkingStream()))]: what the
    reader of the decoded stream is given.  [unread] is the platform's: how
    many chunks are still unread in the queue of the transform stream when
    a failure of the source reaches it. *)
Definition dechunk (unread : nat) (b : ByteStream) : ByteStream :=
  match ending b with
  | None =>
      let '(_, out, e) := DechunkingStream.deliver (chunks b) DechunkingStream.new in
      {| chunks := out; ending := e |}
  | Some m =>
      let '(out, e) :=
        DechunkingStream.deliverFailing unread (chunks b) DechunkingStream.new m in
      {| chunks := out; ending := e |}
  end.

(** [new Headers(responseHeaders)]: a TypeError for a name that is no
    token (one or more of the letters, the digits and the fifteen marks of
    the HTTP grammar) and for a value with a NUL, a CR or a LF in it.  The
    values come trimmed (line 107), which leaves the constructor's own
    removal of white space around a value nothing to do; a value outside
    Latin-1 is taken as it is on the worker's platform. *)
Definition isTokenChar (c : ascii) : bool :=
  Uri.isAlnum c || includes (String c "") "!#$%&'*+-.^_`|~".

Definition validName (s : string) : bool :=
  negb (isEmpty s) && Every.every isTokenChar s.

Definition validValue (s : string) : bool :=
  Every.every (fun c => negb (((code c =? 0) || (code c =? 10) || (code c =? 13))%Z)) s.

Fixpoint Headers_new (o : Js.object) : Result Headers.t :=
  match o with
  | [] => Ok []
  | (name, value) :: r =>
      if negb (validName name) then Throws "Invalid header name."
      else if negb (validValue value) then Throws "Invalid header value."
      else match Headers_new r with
           | Ok h => Ok ((name, value) :: h)
           | Throws m => Throws m
           end
  end.

(** [start(controller)]: the bytes left over are enqueued when there are
    any. *)
Definition first (leftover : bytes) : list bytes :=
  if (0 <? len leftover)%Z then [leftover] else [].

Section Net.

(** [new URL(url)] *)
Variable parseURL : string -> Result Target.

(** [connect({ hostname, port }, { secureTransport })] and the writing of
    the request: what the peer answers, or the exception raised. *)
Variable connect : string -> Z -> bytes -> Result Wire.

(** [String.prototype.toLowerCase], which is the platform's on text that
    is not ASCII. *)
Variable toLowerCase : string -> string.

(** The chunks a reader of a decoded body has left unread when the socket
    fails: see [dechunk]. *)
Variable unread : nat.

(** Line 68. *)
Definition portOf (targetUrl : Target) : Z :=
  Js.orNum (Js.parseInt (port targetUrl))
           (if String.eqb (protocol targetUrl) "https:" then 443 else 80)%Z.

(** Lines 75 to 77. *)
Definition withDefaults (targetUrl : Target) (headers : Js.object) : Js.object :=
  Js.setDefault (Js.setDefault headers "Host" (host targetUrl))
                "Connection" "close".

(** Lines 79 to 83; [headers] in the order [Object.entries] lists it. *)
Definition requestStr (path : string) (headers : Js.object) : string :=
  "GET " ++ path ++ " HTTP/1.1" ++ CRLF
  ++ fold_left (fun acc kv => acc ++ fst kv ++ ": " ++ snd kv ++ CRLF) headers ""
  ++ CRLF.

(** Line 104. *)
Definition statusOf (line : string) : Z :=
  Js.orNum (match nth_error (split " "%char line) 1 with
            | Some token => Js.parseInt token
            | None => NaN
            end) 200%Z.

(** Lines 106 and 107. *)
Definition headerOf (responseHeaders : Js.object) (line : string) : Js.object :=
  match Uri.cut ":"%char line with
  | (name, Some value) =>
      Js.setProp responseHeaders (toLowerCase (trim name)) (trim value)
  | (_, None) => responseHeaders
  end.

(** Lines 103 to 108: the status and the header object of a head. *)
Definition parseHead (headText : string) : Z * Js.object :=
  let lines := splitCRLF headText in
  (statusOf (hd "" lines), fold_left headerOf (tl lines) []).

(** The loop of lines 94 to 112. *)
Inductive Head : Type :=
| NoHead : bytes -> Head
| Found : Z -> Js.object -> bytes -> list bytes -> Head.

Fixpoint readHead (values : list bytes) (leftover : bytes) : Head :=
  match values with
  | [] => NoHead leftover
  | value :: rest =>
      let leftover := (leftover ++ value)%list in
      match before CRLF2 (Utf8.decode true leftover) with
      | None => readHead rest leftover
      | Some headText =>
          let '(status, responseHeaders) := parseHead headText in
          let headBytes := encode (headText ++ CRLF2) in
          Found status responseHeaders
                (slice leftover (Num (len headBytes)) None) rest
      end
  end.

(** What [socketFetch] returns: the status, the [Headers] made of the
    header object at line 138, and the body stream. *)
Record Answer : Type := mkAnswer {
  status : Z;
  responseHeaders : Headers.t;
  body : ByteStream
}.

(** Lines 131 to 134: the header object and the body stream after
    them. *)
Definition finish (responseHeaders : Js.object) (bodyStream : ByteStream)
  : Js.object * ByteStream :=
  match Js.prop responseHeaders "transfer-encoding" with
  | Some te =>
      if String.eqb te "chunked"
      then (Js.deleteProp responseHeaders "transfer-encoding",
            dechunk unread bodyStream)
      else (responseHeaders, bodyStream)
  | None => (responseHeaders, bodyStream)
  end.

(** Lines 131 to 140. *)
Definition answer (status : Z) (responseHeaders : Js.object)
           (bodyStream : ByteStream) : Result Answer :=
  let '(responseHeaders, bodyStream) := finish responseHeaders bodyStream in
  match Headers_new responseHeaders with
  | Throws m => Throws m
  | Ok headers =>
      Ok {| status := status; responseHeaders := headers; body := bodyStream |}
  end.

(** [socketFetch(url, { headers })].  The function also leaves the two
    defaults in the caller's [headers] object, which the handler does not
    look at again. *)
Definition socketFetch (url : string) (headers : Js.object) : Result Answer :=
  match parseURL url with
  | Throws m => Throws m
  | Ok targetUrl =>
      let path := pathname targetUrl ++ search targetUrl in
      let headers := withDefaults targetUrl headers in
      match connect (hostname targetUrl) (portOf targetUrl)
                    (encode (requestStr path headers)) with
      | Throws m => Throws m
      | Ok wire =>
          match readHead (reads wire) [] with
          | NoHead leftover =>
              match failure wire with
              | Some m => Throws m
              | None =>
                  answer 200 [] {| chunks := first leftover; ending := None |}
              end
          | Found status responseHeaders leftover rest =>
              answer status responseHeaders
                     {| chunks := (first leftover ++ rest)%list;
                        ending := failure wire |}
          end
      end
  end.

End Net.

End Socket.

(** ** What a server writes *)

(** The head of an HTTP/1.1 response as a server writes it, for the
    properties of [socketFetch]: numbers in decimal, one line per header,
    and nothing but ASCII. *)
Module Http.

Import Str.
Local Open Scope string_scope.

Definition isAscii (c : ascii) : bool := (code c <? 128)%Z.

Fixpoint decDigits (fuel : nat) (n : Z) (acc : string) : string :=
  match fuel with
  | O => acc
  | S f =>
      let acc' := String (Uri.hexChar (n mod 10)) acc in
      if (n / 10 =? 0)%Z then acc' else decDigits f (n / 10) acc'
  end.

Definition decimal (n : Z) : string := decDigits (S (Z.to_nat n)) n "".

(** Version, status code and reason phrase, a space between them. *)
Definition statusLine (version : string) (code : Z) (reason : string) : string :=
  version ++ " " ++ decimal code ++ " " ++ reason.

Definition headerLine (kv : string * string) : string :=
  fst kv ++ ": " ++ snd kv.



(** Header lines one after the other, each with its line end. *)
Fixpoint fieldLines (fields : list (string * string)) : string :=
  match fields with
  | [] => ""
  | kv :: r => headerLine kv ++ Socket.CRLF ++ fieldLines r
  end.

(** Status line and header lines, without the empty line that ends
    them. *)
Definition head (statusLine : string) (fields : list (string * string)) : string :=
  join Socket.CRLF (statusLine :: map headerLine fields).


End Http.

(** ** A network for the examples *)

(** An instance of what [socketFetch] takes from the platform: one URL
    that parses, a peer that sends the same reads whatever is written to
    it, the lower case of ASCII, and a reader that leaves nothing
    unread. *)
Module SocketDemo.

Import Str.
Local Open Scope string_scope.

Definition url : string := "https://cdn.example:2228/seg-1.ts".

Definition target : Socket.Target :=
  {| Socket.hostname := "cdn.example";
     Socket.port := "2228";
     Socket.protocol := "https:";
     Socket.pathname := "/seg-1.ts";
     Socket.search := "";
     Socket.host := "cdn.example:2228" |}.

Definition parseURL (u : string) : Result Socket.Target :=
  if String.eqb u url then Ok target else Throws "Invalid URL".

Definition answers (w : Socket.Wire) : string -> Z -> U8.bytes -> Result Socket.Wire :=
  fun _ _ _ => Ok w.

Definition socketFetch (w : Socket.Wire) (headers : Js.object)
  : Result Socket.Answer :=
  Socket.socketFetch parseURL (answers w) Headers.lower 0 url headers.

(** The head of a 200 with the given headers. *)
Definition ok (fields : list (string * string)) : string :=
  Http.head (Http.statusLine "HTTP/1.1" 200 "OK") fields.

End SocketDemo.

(** ** What the decoder waits for *)

Module Waiting.

Import U8 DechunkingStream.

(** A decoder that holds no complete unit: nothing at all, a size line or
    a footer line whose CR has not come yet, or fewer payload bytes than
    the chunk size. *)
Definition waiting (d : t) : Prop :=
  buffer d = []
  \/ (state d = size /\ indexOf (buffer d) CR = -1)
  \/ (state d = footer /\ indexOf (buffer d) CR = -1)
  \/ (state d = data /\ ltNum (len (buffer d)) (chunkSize d) = true).

(** A unit whose size line carries a chunk extension: the size in
    hexadecimal, a semicolon and the extension text, the payload. *)
Definition chunkExt (ext : string) (payload : bytes) : bytes :=
  encode (Chunked.toHex (len payload) ++ String ";" ext)
  ++ Demo.crlf ++ payload ++ Demo.crlf.

End Waiting.

(** ** Facts about slices and searches *)

Module U8Facts.

Import U8.

Lemma len_nonneg (b : bytes) : 0 <= len b.
Proof. unfold len; lia. Qed.

Lemma len_app (a b : bytes) : len (a ++ b) = len a + len b.
Proof. unfold len; rewrite length_app; lia. Qed.

(** [slice(k)] with [k] not negative drops the first [k] bytes. *)
Lemma slice_from (b : bytes) (k : Z) :
  0 <= k -> slice b (Num k) None = skipn (Z.to_nat k) b.
Proof.
  intros Hk. unfold slice, relative, toInteger.
  assert (Hl := len_nonneg b). unfold len in *.
  destruct (k <? 0) eqn:E; [lia|].
  destruct (Z.min_spec k (Z.of_nat (List.length b))) as [[Hlt ->]|[Hge ->]].
  - apply firstn_all2. rewrite length_skipn. lia.
  - rewrite Z.sub_diag. simpl firstn.
    symmetry. apply skipn_all2. lia.
Qed.

(** [slice(0, k)] with [k] not negative keeps the first [k] bytes. *)
Lemma slice_upto (b : bytes) (k : Z) :
  0 <= k -> slice b (Num 0) (Some (Num k)) = firstn (Z.to_nat k) b.
Proof.
  intros Hk. unfold slice, relative, toInteger.
  assert (Hl := len_nonneg b). unfold len in *.
  destruct (k <? 0) eqn:E; [lia|].
  replace (0 <? 0) with false by reflexivity.
  rewrite (Z.min_l 0) by lia. simpl skipn. rewrite Z.sub_0_r.
  destruct (Z.min_spec k (Z.of_nat (List.length b))) as [[Hlt ->]|[Hge ->]].
  - reflexivity.
  - rewrite Nat2Z.id, firstn_all. symmetry. apply firstn_all2. lia.
Qed.

(** No slice is longer than the array. *)
Lemma slice_length_le (b : bytes) (s : num) (e : option num) :
  (List.length (slice b s e) <= List.length b)%nat.
Proof.
  unfold slice. rewrite length_firstn, length_skipn. lia.
Qed.

(** [slice(k)] with [k] positive shortens a non-empty array. *)
Lemma slice_from_shorter (b : bytes) (k : Z) :
  0 < k -> 0 < len b ->
  (List.length (slice b (Num k) None) < List.length b)%nat.
Proof.
  intros Hk Hb. rewrite slice_from by lia. rewrite length_skipn.
  unfold len in Hb. lia.
Qed.

Lemma indexOfFrom_range (x : byte) (b : bytes) (i : Z) :
  indexOfFrom x b i = -1 \/ (i <= indexOfFrom x b i < i + len b).
Proof.
  revert i. induction b as [|y r IH]; intros i; simpl.
  - now left.
  - destruct (Byte.eqb y x).
    + right. unfold len. simpl List.length. lia.
    + destruct (IH (i + 1)) as [H|H]; [now left|].
      right. unfold len in *. simpl List.length. lia.
Qed.

Lemma indexOf_range (b : bytes) (x : byte) :
  indexOf b x = -1 \/ (0 <= indexOf b x < len b).
Proof. apply indexOfFrom_range. Qed.

Lemma byte_eqb_refl (x : byte) : Byte.eqb x x = true.
Proof. now apply Byte.byte_dec_lb. Qed.

Lemma byte_eqb_neq (x y : byte) : x <> y -> Byte.eqb x y = false.
Proof.
  intros H. destruct (Byte.eqb x y) eqn:E; [|reflexivity].
  apply Byte.byte_dec_bl in E. contradiction.
Qed.

Lemma indexOfFrom_app (x : byte) (l r : bytes) (i : Z) :
  ~ In x l -> indexOfFrom x (l ++ x :: r) i = i + len l.
Proof.
  revert i. induction l as [|y l IH]; intros i Hn; simpl.
  - rewrite byte_eqb_refl. unfold len. simpl. lia.
  - rewrite byte_eqb_neq by (intros ->; apply Hn; now left).
    rewrite IH by (intros H; apply Hn; now right).
    unfold len. simpl List.length. lia.
Qed.

(** The first [x] of [l ++ x :: r] is right after [l] when [l] has none. *)
Lemma indexOf_app (x : byte) (l r : bytes) :
  ~ In x l -> indexOf (l ++ x :: r) x = len l.
Proof. intros H. unfold indexOf. now rewrite indexOfFrom_app. Qed.

Lemma indexOfFrom_absent (x : byte) (b : bytes) (i : Z) :
  ~ In x b -> indexOfFrom x b i = -1.
Proof.
  revert i. induction b as [|y r IH]; intros i Hn; simpl; [reflexivity|].
  rewrite byte_eqb_neq by (intros ->; apply Hn; now left).
  apply IH. intros H; apply Hn; now right.
Qed.

Lemma firstn_len_app (l r : bytes) : firstn (Z.to_nat (len l)) (l ++ r) = l.
Proof.
  unfold len. rewrite Nat2Z.id.
  rewrite firstn_app, Nat.sub_diag, firstn_all. simpl. apply app_nil_r.
Qed.

Lemma skipn_len_app (l r : bytes) (k : nat) :
  skipn (Z.to_nat (len l + Z.of_nat k)) (l ++ r) = skipn k r.
Proof.
  unfold len. rewrite <- Nat2Z.inj_add, Nat2Z.id.
  rewrite skipn_app. rewrite skipn_all2 by lia.
  simpl. f_equal. lia.
Qed.

End U8Facts.

(** ** The decoder: termination of the loop, and what each state does *)

Module DechunkFacts.

Import U8 U8Facts DechunkingStream.

(** A pass that continues lowers the bound [passes]. *)
Lemma body_decreases (d d' : t) (c c' : Controller) :
  0 < len (buffer d) ->
  body d c = Continue d' c' ->
  (passes d' < passes d)%nat.
Proof.
  destruct d as [b st cs]. unfold body, passes. simpl. intros Hb.
  destruct st.
  - destruct (indexOf_range b CR) as [E|Hr]; [rewrite E; discriminate|].
    destruct (indexOf b CR =? -1) eqn:E; [discriminate|].
    assert (Hs := slice_from_shorter b (indexOf b CR + 2) ltac:(lia) Hb).
    destruct (isNaN _); [discriminate|].
    destruct (isZero _); intros [= <- <-]; simpl; lia.
  - destruct (ltNum (len b) cs); [discriminate|].
    destruct (enqueue c _); [|discriminate].
    intros [= <- <-]. simpl.
    assert (Hs := slice_length_le b (plus2 cs) None). lia.
  - destruct (indexOf_range b CR) as [E|Hr]; [rewrite E; discriminate|].
    destruct (indexOf b CR =? -1) eqn:E; [discriminate|].
    assert (Hs := slice_from_shorter b (indexOf b CR + 2) ltac:(lia) Hb).
    intros [= <- <-]. simpl.
    destruct (indexOf b CR =? 0); simpl; [unfold len in Hb|]; lia.
Qed.

(** The loop ends within [passes d] passes: [transform] always returns. *)
Lemma loop_total (fuel : nat) (d : t) (c : Controller) :
  (passes d < fuel)%nat -> exists r, loop fuel d c = Some r.
Proof.
  revert d c. induction fuel as [|f IH]; intros d c Hf; [lia|].
  simpl. destruct (0 <? len (buffer d)) eqn:Hb; [|eauto].
  apply Z.ltb_lt in Hb.
  destruct (body d c) as [d' c'| | |] eqn:Hbody; eauto.
  apply IH. apply body_decreases in Hbody; [lia|assumption].
Qed.

(** More fuel does not change a result. *)
Lemma loop_fuel_le (f f' : nat) (d : t) (c : Controller)
      (r : t * Controller * Completion) :
  (f <= f')%nat -> loop f d c = Some r -> loop f' d c = Some r.
Proof.
  revert f' d c. induction f as [|f IH]; intros f' d c Hle.
  - simpl. destruct f'; simpl; destruct (0 <? len (buffer d)); congruence.
  - destruct f' as [|f']; [lia|]. simpl.
    destruct (0 <? len (buffer d)); [|trivial].
    destruct (body d c); trivial. apply IH. lia.
Qed.

(** [transform] is the loop run on the merged buffer, whatever fuel
    brought the loop to its end. *)
Lemma transform_loop (fuel : nat) (d : t) (chunk : bytes) (c : Controller)
      (r : t * Controller * Completion) :
  loop fuel {| buffer := merge (buffer d) chunk;
               state := state d; chunkSize := chunkSize d |} c = Some r ->
  transform d chunk c = r.
Proof.
  intros H. unfold transform.
  set (d0 := {| buffer := merge (buffer d) chunk;
                state := state d; chunkSize := chunkSize d |}) in *.
  destruct (loop_total (S (passes d0)) d0 c) as [r' Hr']; [lia|].
  rewrite Hr'.
  apply (loop_fuel_le _ (Nat.max fuel (S (passes d0)))) in H; [|lia].
  apply (loop_fuel_le _ (Nat.max fuel (S (passes d0)))) in Hr'; [|lia].
  congruence.
Qed.

(** One more pass. *)
Lemma loop_continue (fuel : nat) (d d' : t) (c c' : Controller) :
  0 < len (buffer d) ->
  body d c = Continue d' c' ->
  loop (S fuel) d c = loop fuel d' c'.
Proof.
  intros Hb Hbody. simpl.
  apply Z.ltb_lt in Hb. now rewrite Hb, Hbody.
Qed.

(** *** State FOOTER never leaves and never emits *)

Lemma body_footer (d : t) (c : Controller) :
  state d = footer ->
  body d c = Break d c
  \/ exists d', body d c = Continue d' c /\ state d' = footer.
Proof.
  intros Hs. unfold body. rewrite Hs.
  destruct (indexOf (buffer d) CR =? -1); [now left|].
  right. eexists. split; reflexivity.
Qed.

Lemma loop_footer (fuel : nat) (d : t) (c : Controller)
      (r : t * Controller * Completion) :
  state d = footer ->
  loop fuel d c = Some r ->
  exists d', r = (d', c, Normal) /\ state d' = footer.
Proof.
  revert d. induction fuel as [|f IH]; intros d Hs; simpl;
    destruct (0 <? len (buffer d)); try discriminate;
    try (intros [= <-]; eauto; fail).
  destruct (body_footer d c Hs) as [->|(d' & -> & Hs')].
  - intros [= <-]; eauto.
  - now apply IH.
Qed.

Lemma transform_footer (d : t) (chunk : bytes) (c : Controller) :
  state d = footer ->
  exists d', transform d chunk c = (d', c, Normal) /\ state d' = footer.
Proof.
  intros Hs. unfold transform.
  set (d0 := {| buffer := merge (buffer d) chunk;
                state := state d; chunkSize := chunkSize d |}).
  destruct (loop (S (passes d0)) d0 c) as [r|] eqn:Hl.
  - apply loop_footer in Hl; [assumption|exact Hs].
  - exists d0. split; [reflexivity|exact Hs].
Qed.

(** Whatever is written to a decoder in state FOOTER, the controller is
    left as it was. *)
Lemma pipe_footer (chunks : list bytes) (d : t) (c : Controller) :
  state d = footer ->
  exists d', pipe chunks d c = (d', c) /\ state d' = footer.
Proof.
  revert d. induction chunks as [|chunk rest IH]; intros d Hs; simpl.
  - eauto.
  - destruct (errored c); [eauto|].
    destruct (transform_footer d chunk c Hs) as (d' & -> & Hs').
    now apply IH.
Qed.

(** An errored stream takes no further chunk. *)
Lemma pipe_errored (chunks : list bytes) (d : t) (c : Controller) (m : string) :
  errored c = Some m -> pipe chunks d c = (d, c).
Proof. intros H. destruct chunks; simpl; [reflexivity|now rewrite H]. Qed.

(** *** State SIZE *)

(** The pass over a complete size line [line ++ CR :: rest]. *)
Lemma body_size (d : t) (c : Controller) (line rest : bytes) :
  state d = size ->
  buffer d = line ++ CR :: rest ->
  ~ In CR line ->
  body d c =
    let n := ParseInt.parseInt16 (decode line) in
    let b := skipn 1 rest in
    if isNaN n then
      Return {| buffer := b; state := size; chunkSize := n |}
             (error c ("Invalid chunk size: " ++ decode line))
    else if isZero n then
      Continue {| buffer := b; state := footer; chunkSize := n |} c
    else
      Continue {| buffer := b; state := data; chunkSize := n |} c.
Proof.
  intros Hs Hb Hn. unfold body. rewrite Hs, Hb.
  rewrite indexOf_app by assumption.
  assert (Hl := len_nonneg line).
  destruct (len line =? -1) eqn:E; [lia|].
  rewrite slice_upto, firstn_len_app by lia.
  rewrite slice_from by lia.
  replace (len line + 2) with (len line + Z.of_nat 2) by lia.
  rewrite skipn_len_app. reflexivity.
Qed.

(** *** State DATA *)

(** The pass in state DATA, for a positive chunk size [n]: as soon as [n]
    bytes are buffered the first [n] are emitted and [n + 2] are dropped. *)
Lemma body_data (d : t) (c : Controller) (n : Z) :
  state d = data ->
  chunkSize d = Num n ->
  0 < n ->
  errored c = None ->
  body d c =
    if len (buffer d) <? n then Break d c
    else Continue {| buffer := skipn (Z.to_nat (n + 2)) (buffer d);
                     state := size; chunkSize := Num n |}
                  {| emitted := emitted c ++ [firstn (Z.to_nat n) (buffer d)];
                     errored := None |}.
Proof.
  intros Hs Hc Hn He. unfold body, enqueue. rewrite Hs, Hc, He. simpl.
  destruct (len (buffer d) <? n); [reflexivity|].
  rewrite slice_upto, slice_from by lia. reflexivity.
Qed.

End DechunkFacts.

(** ** Header lists: what [set], [delete] and [get] do to one another *)

Module HeadersFacts.

Import Headers.

Lemma same_refl (n : string) : same n n = true.
Proof. apply String.eqb_refl. Qed.

Lemma same_true (a b : string) : same a b = true -> lower a = lower b.
Proof. apply String.eqb_eq. Qed.

(** Two names that match are the same name for every test. *)
Lemma named_same (x : string * string) (n m : string) :
  named n x = true -> named m x = same n m.
Proof.
  unfold named, same. intros H. apply String.eqb_eq in H. now rewrite H.
Qed.

Lemma has_filter (h : t) (n : string) :
  has h n = false -> filter (named n) h = [].
Proof.
  unfold has. induction h as [|x r IH]; simpl; [reflexivity|].
  destruct (named n x); simpl; [discriminate|exact IH].
Qed.


Lemma filter_delete_other (h : t) (n m : string) :
  same n m = false ->
  filter (named m) (delete h n) = filter (named m) h.
Proof.
  intros Hnm. unfold delete. induction h as [|x r IH]; simpl; [reflexivity|].
  destruct (named n x) eqn:E; simpl.
  - rewrite (named_same x n m E), Hnm. exact IH.
  - now rewrite IH.
Qed.


Lemma filter_setFirst_other (h : t) (n m v : string) :
  same n m = false ->
  filter (named m) (setFirst h n v) = filter (named m) h.
Proof.
  intros Hnm. induction h as [|x r IH]; simpl; [reflexivity|].
  destruct (named n x) eqn:E; simpl.
  - assert (E' : named n (fst x, v) = true) by exact E.
    rewrite (named_same _ n m E'), (named_same x n m E), Hnm.
    now apply filter_delete_other.
  - now rewrite IH.
Qed.


(** [set] of a name leaves every other name as it was. *)
Lemma filter_set_other (h : t) (n m v : string) :
  same n m = false ->
  filter (named m) (set h n v) = filter (named m) h.
Proof.
  intros Hnm. unfold set. destruct (has h n).
  - now apply filter_setFirst_other.
  - rewrite filter_app. simpl. unfold named at 2. simpl.
    rewrite Hnm. apply app_nil_r.
Qed.

Lemma get_set_other (h : t) (n m v : string) :
  same n m = false -> get (set h n v) m = get h m.
Proof. intros H. unfold get. now rewrite filter_set_other. Qed.

Lemma get_delete_other (h : t) (n m : string) :
  same n m = false -> get (delete h n) m = get h m.
Proof. intros H. unfold get. now rewrite filter_delete_other. Qed.




(** A name is there exactly when [get] gives a value for it. *)
Lemma has_get (h : t) (n : string) :
  has h n = match get h n with Some _ => true | None => false end.
Proof.
  unfold has, get. induction h as [|x r IH]; simpl; [reflexivity|].
  destruct (named n x); simpl; [reflexivity|exact IH].
Qed.

(** A header put at the end under a name that was not there is what [get]
    gives for that name, and changes no other name. *)
Lemma get_app_new (h : t) (n v : string) :
  has h n = false -> get (h ++ [(n, v)]) n = Some v.
Proof.
  intros H. unfold get. rewrite filter_app, (has_filter _ _ H). simpl.
  unfold named. simpl fst. now rewrite same_refl.
Qed.

Lemma get_app_other (h : t) (n v m : string) :
  same n m = false -> get (h ++ [(n, v)]) m = get h m.
Proof.
  intros H. unfold get. rewrite filter_app. simpl. unfold named at 2.
  simpl fst. rewrite H. now rewrite app_nil_r.
Qed.

End HeadersFacts.

(** ** Strings: cutting, splitting, and the percent-encoding round trip *)

Module StrFacts.

Import Str Uri.
Local Open Scope string_scope.

Lemma append_assoc (a b c : string) : (a ++ b) ++ c = a ++ (b ++ c).
Proof. induction a as [|x a IH]; simpl; [reflexivity|now rewrite IH]. Qed.

Lemma append_nil_r (a : string) : a ++ "" = a.
Proof. induction a as [|x a IH]; simpl; [reflexivity|now rewrite IH]. Qed.

Lemma occurs_app (c : ascii) (a b : string) :
  occurs c (a ++ b) = occurs c a || occurs c b.
Proof.
  induction a as [|x a IH]; simpl; [reflexivity|].
  now rewrite IH, orb_assoc.
Qed.

(** Cutting at a character the text does not have. *)
Lemma cut_absent (c : ascii) (s : string) :
  occurs c s = false -> cut c s = (s, None).
Proof.
  induction s as [|x s IH]; simpl; [reflexivity|].
  destruct (Ascii.eqb x c); simpl; [discriminate|].
  intros H. now rewrite IH.
Qed.

(** Cutting at the first occurrence. *)
Lemma cut_app (c : ascii) (a r : string) :
  occurs c a = false -> cut c (a ++ String c r) = (a, Some r).
Proof.
  induction a as [|x a IH]; simpl.
  - now rewrite Ascii.eqb_refl.
  - destruct (Ascii.eqb x c); simpl; [discriminate|].
    intros H. now rewrite IH.
Qed.

(** Splitting at the first separator. *)
Lemma split_app (sep : ascii) (a r : string) :
  occurs sep a = false -> split sep (a ++ String sep r) = a :: split sep r.
Proof.
  induction a as [|x a IH]; simpl.
  - now rewrite Ascii.eqb_refl.
  - destruct (Ascii.eqb x sep); simpl; [discriminate|].
    intros H. now rewrite IH.
Qed.

(** [uptoLast c s] is [s] cut right after its last [c]: what is left has
    no [c], and the part kept is empty or ends in [c]. *)
Lemma uptoLast_spec (c : ascii) (s : string) :
  exists tail,
    s = uptoLast c s ++ tail
    /\ occurs c tail = false
    /\ (uptoLast c s = "" \/ exists p, uptoLast c s = p ++ String c "").
Proof.
  induction s as [|x s (tail & Hs & Ht & Hp)]; simpl.
  - exists "". auto.
  - destruct (Ascii.eqb x c) eqn:E.
    + apply Ascii.eqb_eq in E. subst x.
      exists tail. split; [simpl; now rewrite <- Hs|]. split; [exact Ht|].
      right. destruct Hp as [->|[p ->]].
      * now exists "".
      * now exists (String c p).
    + destruct (uptoLast c s) as [|y u] eqn:Eu.
      * exists (String x s). simpl. rewrite E. simpl in Hs. subst tail.
        split; [reflexivity|]. split; [exact Ht|now left].
      * exists tail. split; [cbn [append]; f_equal; exact Hs|]. split; [exact Ht|].
        right. destruct Hp as [Hp|[p Hp]]; [discriminate|].
        exists (String x p). cbn [append]. f_equal. exact Hp.
Qed.

(** Per character: an unescaped character is neither [+] nor [%]; any
    other is recovered from its two hexadecimal digits. *)
Lemma char_round_trip (a : ascii) :
  if unescaped a then
    Ascii.eqb a "+" = false /\ Ascii.eqb a "%" = false
  else
    ParseInt.hexDigit (hexChar (code a / 16)) = Some (code a / 16)%Z
    /\ ParseInt.hexDigit (hexChar (code a mod 16)) = Some (code a mod 16)%Z
    /\ ascii_of_nat (Z.to_nat (16 * (code a / 16) + code a mod 16)) = a.
Proof.
  destruct a as [[] [] [] [] [] [] [] []]; vm_compute; repeat split.
Qed.

(** The two digits of an escape are themselves unescaped characters. *)
Lemma hex_unescaped (a : ascii) :
  unescaped (hexChar (code a / 16)) = true
  /\ unescaped (hexChar (code a mod 16)) = true.
Proof.
  destruct a as [[] [] [] [] [] [] [] []]; vm_compute; split; reflexivity.
Qed.

Lemma formDecode_escape (h l : ascii) (x y : Z) (r : string) :
  ParseInt.hexDigit h = Some x ->
  ParseInt.hexDigit l = Some y ->
  formDecode (String "%" (String h (String l r)))
  = String (ascii_of_nat (Z.to_nat (16 * x + y))) (formDecode r).
Proof. intros Hh Hl. simpl. now rewrite Hh, Hl. Qed.

Lemma formDecode_plain (c : ascii) (r : string) :
  Ascii.eqb c "+" = false ->
  Ascii.eqb c "%" = false ->
  formDecode (String c r) = String c (formDecode r).
Proof. intros H1 H2. simpl. now rewrite H1, H2. Qed.

(** Decoding undoes [encodeURIComponent]. *)
Lemma formDecode_encodeURIComponent (s : string) :
  formDecode (encodeURIComponent s) = s.
Proof.
  induction s as [|a s IH]; [reflexivity|].
  cbn [encodeURIComponent].
  pose proof (char_round_trip a) as H. destruct (unescaped a).
  - destruct H as [H1 H2]. rewrite formDecode_plain by assumption. now rewrite IH.
  - destruct H as (H1 & H2 & H3).
    rewrite (formDecode_escape _ _ _ _ _ H1 H2). now rewrite H3, IH.
Qed.

(** A character that [encodeURIComponent] escapes does not occur in what it
    returns, the percent sign apart. *)
Lemma encodeURIComponent_free (c : ascii) (s : string) :
  unescaped c = false ->
  Ascii.eqb c "%" = false ->
  occurs c (encodeURIComponent s) = false.
Proof.
  intros Hc Hp.
  assert (Hne : forall a, unescaped a = true -> Ascii.eqb a c = false).
  { intros a Ha. destruct (Ascii.eqb a c) eqn:E; [|reflexivity].
    apply Ascii.eqb_eq in E. subst a. congruence. }
  induction s as [|a s IH]; [reflexivity|].
  cbn [encodeURIComponent]. destruct (unescaped a) eqn:Ua.
  - cbn [occurs]. now rewrite (Hne a Ua), IH.
  - destruct (hex_unescaped a) as [H1 H2].
    cbn [occurs]. rewrite (Hne _ H1), (Hne _ H2), IH.
    rewrite Ascii.eqb_sym, Hp. reflexivity.
Qed.

End StrFacts.

(** ** The handler: what each path answers *)

Module WorkerFacts.

Import Str Worker Spec.
Local Open Scope string_scope.

Section Platform.

Variable Stream : Type.
Variable parseURL : string -> Result URL.
Variable text : option Stream -> Result string.
Variable socketFetch :
  string -> list (string * string) -> Result (SocketResponse Stream).
Variable globalFetch :
  string -> list (string * string) -> Result (NativeResponse Stream).

Local Abbreviation fetch := (fetch Stream parseURL text socketFetch globalFetch).
Local Abbreviation upstream := (upstream Stream socketFetch globalFetch).
Local Abbreviation pipeline := (pipeline Stream text).
Local Abbreviation Response_new := (Response_new Stream).
Local Abbreviation Response := (Response Stream).
Local Abbreviation Upstream := (Upstream Stream).
Local Abbreviation failed := (Spec.failed Stream).

(** A response the constructor built has the status it was given. *)
Lemma Response_new_status (b : Body Stream) (s : Z) (h : Headers.t) (r : Response) :
  Response_new b s h = Ok r -> status Stream r = s.
Proof.
  unfold Worker.Response_new.
  destruct ((s <? 200)%Z || (599 <? s)%Z); [discriminate|].
  destruct (nullBodyStatus s).
  - destruct b as [|[|? ?]| |]; try discriminate; now intros [= <-].
  - now intros [= <-].
Qed.

(** Its headers are those it was given, with the content type of a string
    body where they named none, and its body is the one it was given or,
    on a null-body status, none. *)
Lemma Response_new_ok (b : Body Stream) (s : Z) (h : Headers.t) (r : Response) :
  Response_new b s h = Ok r ->
  (headers Stream r = h /\ body Stream r = NoBody Stream)
  \/ (headers Stream r = withType Stream b h /\ body Stream r = b).
Proof.
  unfold Worker.Response_new.
  destruct ((s <? 200)%Z || (599 <? s)%Z); [discriminate|].
  destruct (nullBodyStatus s).
  - destruct b as [|[|? ?]| |]; try discriminate; intros [= <-]; now left.
  - intros [= <-]. now right.
Qed.

Lemma withType_get (b : Body Stream) (h : Headers.t) (name : string) :
  Headers.same "Content-Type" name = false ->
  Headers.get (withType Stream b h) name = Headers.get h name.
Proof.
  intros H. unfold withType.
  destruct (isString Stream b && negb (Headers.has h "Content-Type"));
    [|reflexivity].
  now apply HeadersFacts.get_app_other.
Qed.

(** What [get] gives for the content type after the constructor. *)
Lemma withType_content_type (b : Body Stream) (h : Headers.t) :
  Headers.get (withType Stream b h) "Content-Type"
  = match Headers.get h "Content-Type" with
    | Some v => Some v
    | None => if isString Stream b then Some "text/plain;charset=UTF-8" else None
    end.
Proof.
  unfold withType. rewrite HeadersFacts.has_get.
  destruct (Headers.get h "Content-Type") as [v|] eqn:E.
  - rewrite andb_false_r. exact E.
  - rewrite andb_true_r. destruct (isString Stream b); [|exact E].
    apply (HeadersFacts.get_app_new h "content-type").
    rewrite HeadersFacts.has_get.
    change (Headers.get h "content-type") with (Headers.get h "Content-Type").
    now rewrite E.
Qed.

(** Every other header is as the constructor was given it. *)
Lemma Response_new_get (b : Body Stream) (s : Z) (h : Headers.t) (r : Response)
      (name : string) :
  Response_new b s h = Ok r ->
  Headers.same "Content-Type" name = false ->
  Headers.get (headers Stream r) name = Headers.get h name.
Proof.
  intros H Hn. destruct (Response_new_ok _ _ _ _ H) as [[-> _]|[-> _]];
    [reflexivity|now apply withType_get].
Qed.

Lemma Response_new_content_type (b : Body Stream) (s : Z) (h : Headers.t)
      (r : Response) :
  Response_new b s h = Ok r ->
  Headers.get (headers Stream r) "Content-Type"
  = match Headers.get h "Content-Type" with
    | Some v => Some v
    | None =>
        if isString Stream (body Stream r) then Some "text/plain;charset=UTF-8"
        else None
    end.
Proof.
  intros H. destruct (Response_new_ok _ _ _ _ H) as [[-> ->]|[-> ->]].
  - simpl. now destruct (Headers.get h "Content-Type").
  - apply withType_content_type.
Qed.

(** The constructor accepts a status of 200..599 that is no null-body
    status. *)
Lemma Response_new_accepts (b : Body Stream) (s : Z) (h : Headers.t) :
  (200 <= s <= 599)%Z ->
  nullBodyStatus s = false ->
  Response_new b s h
  = Ok {| status := s; headers := withType Stream b h; body := b |}.
Proof.
  intros Hs Hb. unfold Worker.Response_new.
  replace ((s <? 200)%Z || (599 <? s)%Z) with false
    by (symmetry; apply orb_false_iff; split; apply Z.ltb_ge; lia).
  now rewrite Hb.
Qed.



Lemma stripped_get (h : Headers.t) (n : string) :
  Headers.same "Content-Security-Policy" n = false ->
  Headers.same "X-Frame-Options" n = false ->
  Headers.get (stripped h) n = Headers.get (marked h) n.
Proof.
  intros H1 H2. unfold stripped.
  now rewrite !HeadersFacts.get_delete_other.
Qed.


(** The content type the pipeline reads at line 267 is the upstream's. *)
Lemma stripped_content_type (h : Headers.t) :
  Headers.get (stripped h) "content-type" = Headers.get h "content-type".
Proof.
  rewrite stripped_get by reflexivity. unfold marked.
  now rewrite !HeadersFacts.get_set_other by reflexivity.
Qed.

(** The pipeline, path by path. *)
Lemma pipeline_paths (req : Request) (url targetReferer : string)
      (targetUrl : URL) (up : Upstream) :
  pipeline req url targetReferer targetUrl up =
    if failed up then
      Response_new (Text Stream ("Upstream error " ++ showStatus (u_status Stream up)))
                   (u_status Stream up) (marked (u_headers Stream up))
    else if isPlaylist (orElse (Headers.get (u_headers Stream up) "content-type") "") url then
      match text (u_body Stream up) with
      | Throws m => Throws m
      | Ok manifestText =>
          Response_new
            (Text Stream
               (rewriteManifest (urlObj_origin req ++ urlObj_pathname req)
                                url targetReferer targetUrl manifestText))
            (u_status Stream up) (stripped (u_headers Stream up))
      end
    else
      Response_new (passthrough Stream (u_body Stream up))
                   (u_status Stream up) (stripped (u_headers Stream up)).
Proof.
  unfold Worker.pipeline, failed. fold (marked (u_headers Stream up)).
  destruct (negb (u_ok Stream up) && negb (u_status Stream up =? 206)%Z);
    [reflexivity|].
  fold (stripped (u_headers Stream up)).
  now rewrite stripped_content_type.
Qed.

(** The status of a response the pipeline built. *)
Lemma pipeline_status (req : Request) (url targetReferer : string)
      (targetUrl : URL) (up : Upstream) (r : Response) :
  pipeline req url targetReferer targetUrl up = Ok r ->
  status Stream r = u_status Stream up.
Proof.
  rewrite pipeline_paths. destruct (failed up).
  - apply Response_new_status.
  - destruct (isPlaylist _ url).
    + destruct (text _); [|discriminate]. apply Response_new_status.
    + apply Response_new_status.
Qed.

(** The header list the pipeline hands to the constructor. *)
Lemma pipeline_given (req : Request) (url targetReferer : string)
      (targetUrl : URL) (up : Upstream) (r : Response) :
  pipeline req url targetReferer targetUrl up = Ok r ->
  exists b,
    Response_new b (u_status Stream up)
                 (if failed up then marked (u_headers Stream up)
                  else stripped (u_headers Stream up)) = Ok r.
Proof.
  rewrite pipeline_paths. destruct (failed up).
  - eauto.
  - destruct (isPlaylist _ url).
    + destruct (text _); [|discriminate]. eauto.
    + eauto.
Qed.

(** The headers of a response the pipeline built, the content type
    apart. *)
Lemma pipeline_headers (req : Request) (url targetReferer : string)
      (targetUrl : URL) (up : Upstream) (r : Response) (name : string) :
  pipeline req url targetReferer targetUrl up = Ok r ->
  Headers.same "Content-Type" name = false ->
  Headers.get (headers Stream r) name
  = Headers.get (if failed up then marked (u_headers Stream up)
                 else stripped (u_headers Stream up)) name.
Proof.
  intros H Hn. destruct (pipeline_given _ _ _ _ _ _ H) as [b Hb].
  now apply (Response_new_get _ _ _ _ _ Hb).
Qed.

(** The three responses the handler writes out itself have no
    proxy-version header. *)
Lemma fixed_responses_unmarked (r : Response) :
  r = preflight Stream \/ r = missingUrl Stream
  \/ (exists m, r = internalError Stream m) ->
  Headers.has (headers Stream r) "X-Proxy-Version" = false.
Proof. intros [->|[->|[m ->]]]; reflexivity. Qed.

(** The handler past its two early returns. *)
Lemma fetch_proxied (req : Request) (url : string) (targetUrl refererUrl : URL) :
  String.eqb (method req) "OPTIONS" = false ->
  param_url req = Some url ->
  isEmpty url = false ->
  parseURL url = Ok targetUrl ->
  parseURL (targetRefererOf (param_referer req) targetUrl) = Ok refererUrl ->
  let targetReferer := targetRefererOf (param_referer req) targetUrl in
  let hm := headersMap targetReferer req in
  fetch req =
    ([ {| transport := select url targetUrl; target := url; sent := hm |} ],
     match upstream url targetUrl hm with
     | Throws m => internalError Stream m
     | Ok up =>
         match pipeline req url targetReferer targetUrl up with
         | Ok r => r
         | Throws m => internalError Stream m
         end
     end).
Proof.
  intros Hm Hu He Hp Hr. unfold Worker.fetch, tryBlock.
  rewrite Hm, Hu. simpl truthy. rewrite He. simpl orElse. rewrite He.
  simpl negb. cbv iota. rewrite Hp, Hr.
  destruct (Worker.upstream _ _ _ url targetUrl _); [|reflexivity].
  destruct (Worker.pipeline _ _ req url _ targetUrl _); reflexivity.
Qed.


End Platform.

End WorkerFacts.

(** ** The claims about the handler *)

Module WorkerClaims.

Import Str Worker Spec WorkerFacts.
Local Open Scope string_scope.

Section Platform.

Variable Stream : Type.
Variable parseURL : string -> Result URL.
Variable text : option Stream -> Result string.
Variable socketFetch :
  string -> list (string * string) -> Result (SocketResponse Stream).
Variable globalFetch :
  string -> list (string * string) -> Result (NativeResponse Stream).

Local Abbreviation fetch := (fetch Stream parseURL text socketFetch globalFetch).
Local Abbreviation upstream := (upstream Stream socketFetch globalFetch).
Local Abbreviation pipeline := (pipeline Stream text).
Local Abbreviation failed := (Spec.failed Stream).


(** C4, amended.  For a successful upstream answer ([ok], or status 206)
    the pipeline buffers and rewrites the body exactly when the upstream
    content type contains mpegurl or the target URL contains .m3u8 at any
    place; otherwise it hands the body on as it is.  Either way the
    response is the one the constructor builds from that body, the
    upstream status and the stripped header list; for a status of 200..599
    that is no null-body status it has that status and that body. *)
Theorem playlist_iff_mpegurl_or_m3u8_anywhere
        (req : Request) (url targetReferer : string) (targetUrl : URL)
        (up : Upstream Stream) :
  u_ok Stream up = true \/ u_status Stream up = 206%Z ->
  let contentType := orElse (Headers.get (u_headers Stream up) "content-type") "" in
  let workerUrl := urlObj_origin req ++ urlObj_pathname req in
  let rewritten manifestText :=
    Text Stream (rewriteManifest workerUrl url targetReferer targetUrl manifestText) in
  pipeline req url targetReferer targetUrl up =
    (if includes "mpegurl" contentType || includes ".m3u8" url then
       match text (u_body Stream up) with
       | Ok manifestText =>
           Response_new Stream (rewritten manifestText)
                        (u_status Stream up) (stripped (u_headers Stream up))
       | Throws m => Throws m
       end
     else
       Response_new Stream (passthrough Stream (u_body Stream up))
                    (u_status Stream up) (stripped (u_headers Stream up)))
  /\ ((200 <= u_status Stream up <= 599)%Z ->
      nullBodyStatus (u_status Stream up) = false ->
      pipeline req url targetReferer targetUrl up =
        if includes "mpegurl" contentType || includes ".m3u8" url then
          match text (u_body Stream up) with
          | Ok manifestText =>
              Ok {| status := u_status Stream up;
                    headers := withType Stream (rewritten manifestText)
                                        (stripped (u_headers Stream up));
                    body := rewritten manifestText |}
          | Throws m => Throws m
          end
        else
          Ok {| status := u_status Stream up;
                headers := stripped (u_headers Stream up);
                body := passthrough Stream (u_body Stream up) |}).
Proof.
  intros Hok contentType workerUrl rewritten.
  assert (H : pipeline req url targetReferer targetUrl up =
    (if includes "mpegurl" contentType || includes ".m3u8" url then
       match text (u_body Stream up) with
       | Ok manifestText =>
           Response_new Stream (rewritten manifestText)
                        (u_status Stream up) (stripped (u_headers Stream up))
       | Throws m => Throws m
       end
     else
       Response_new Stream (passthrough Stream (u_body Stream up))
                    (u_status Stream up) (stripped (u_headers Stream up)))).
  { rewrite pipeline_paths. replace (failed up) with false.
    - fold contentType. unfold isPlaylist.
      destruct (includes "mpegurl" contentType || includes ".m3u8" url);
        [|reflexivity].
      destruct (text (u_body Stream up)); reflexivity.
    - unfold Spec.failed. destruct Hok as [-> | ->]; [reflexivity|].
      now rewrite andb_false_r. }
  split; [exact H|]. intros Hs Hn. rewrite H.
  destruct (includes "mpegurl" contentType || includes ".m3u8" url).
  - destruct (text (u_body Stream up)); [|reflexivity].
    now apply Response_new_accepts.
  - rewrite Response_new_accepts by assumption.
    now destruct (u_body Stream up).
Qed.

(** C5, amended.  The raw socket is selected exactly when the text of the
    target URL contains :2228 at any place or the host name contains one of
    the nine listed names; every other target goes to the platform's
    client.  The request is then made over the selected transport. *)
Theorem raw_socket_iff_2228_anywhere_or_listed_host
        (url : string) (targetUrl : URL) (hm : list (string * string)) :
  let listed :=
    existsb (fun name => includes name (hostname targetUrl)) denylist in
  select url targetUrl
    = (if includes ":2228" url || listed then RAW_SOCKET else NATIVE)
  /\ upstream url targetUrl hm
    = match select url targetUrl with
      | RAW_SOCKET =>
          match socketFetch url hm with
          | Ok sRes => Ok (ofSocket Stream sRes)
          | Throws m => Throws m
          end
      | NATIVE =>
          match globalFetch url hm with
          | Ok res => Ok (ofNative Stream res)
          | Throws m => Throws m
          end
      end.
Proof.
  intros listed. unfold select, Worker.upstream.
  assert (H : needsSocketFetch url targetUrl = includes ":2228" url || listed).
  { unfold needsSocketFetch, listed, denylist. simpl existsb.
    rewrite orb_false_r. now rewrite !orb_assoc. }
  rewrite H. destruct (includes ":2228" url || listed); split; reflexivity.
Qed.

(** C10.  For a request that asks for a URL whose host name is
    cdn.dotstream.buzz, whatever referer parameter it gives: the referer
    the handler settles on is https://megaplay.buzz/; the upstream request,
    which is the call of [socketFetch] or of the platform's [fetch] that
    the transport selector picks, is made with the header list of that
    referer, which holds the header Referer with that value and no other
    Referer; the handler makes that one call, and its response is what the
    pipeline builds from the answer with that referer, so that every URL it
    writes into a playlist ends in the referer parameter
    https%3A%2F%2Fmegaplay.buzz%2F. *)
Theorem dotstream_referer_is_megaplay
        (req : Request) (url : string) (targetUrl refererUrl : URL) :
  String.eqb (method req) "OPTIONS" = false ->
  param_url req = Some url ->
  isEmpty url = false ->
  parseURL url = Ok targetUrl ->
  hostname targetUrl = "cdn.dotstream.buzz" ->
  parseURL "https://megaplay.buzz/" = Ok refererUrl ->
  let hm := headersMap "https://megaplay.buzz/" req in
  let answer :=
    match select url targetUrl with
    | RAW_SOCKET =>
        match socketFetch url hm with
        | Ok sRes => Ok (ofSocket Stream sRes)
        | Throws m => Throws m
        end
    | NATIVE =>
        match globalFetch url hm with
        | Ok res => Ok (ofNative Stream res)
        | Throws m => Throws m
        end
    end in
  targetRefererOf (param_referer req) targetUrl = "https://megaplay.buzz/"
  /\ filter (Headers.named "Referer") hm = [("Referer", "https://megaplay.buzz/")]
  /\ fst (fetch req)
     = [ {| transport := select url targetUrl; target := url; sent := hm |} ]
  /\ snd (fetch req)
     = match answer with
       | Throws m => internalError Stream m
       | Ok up =>
           match pipeline req url "https://megaplay.buzz/" targetUrl up with
           | Ok r => r
           | Throws m => internalError Stream m
           end
       end
  /\ forall workerUrl basePath line,
      proxyLine workerUrl url basePath "https://megaplay.buzz/" targetUrl line
      = workerUrl ++ "?url="
          ++ Uri.encodeURIComponent (resolve url basePath targetUrl line)
          ++ "&referer=https%3A%2F%2Fmegaplay.buzz%2F".
Proof.
  intros Hm Hu He Hp Hh Hr hm answer.
  assert (Ht : targetRefererOf (param_referer req) targetUrl = "https://megaplay.buzz/")
    by (unfold targetRefererOf; now rewrite Hh).
  assert (Hr' : parseURL (targetRefererOf (param_referer req) targetUrl) = Ok refererUrl)
    by now rewrite Ht.
  pose proof (fetch_proxied Stream parseURL text socketFetch globalFetch
                req url targetUrl refererUrl Hm Hu He Hp Hr') as Hf.
  cbv zeta in Hf. rewrite Ht in Hf. fold hm in Hf.
  assert (Hu' : upstream url targetUrl hm = answer).
  { unfold Worker.upstream, answer, select.
    now destruct (needsSocketFetch url targetUrl). }
  rewrite Hu' in Hf.
  split; [exact Ht|]. split.
  - unfold hm, headersMap. rewrite !filter_app. simpl.
    destruct (truthy (header_Range req)), (truthy (header_XRequestedWith req));
      reflexivity.
  - split; [now rewrite Hf|]. split; [now rewrite Hf|]. reflexivity.
Qed.

End Platform.

End WorkerClaims.

(** ** The claims about the manifest rewriter *)

Module RewriterClaims.

Import Str Uri Worker Spec StrFacts.
Local Open Scope string_scope.

(** What [proxyLine] returns, with its resolution written out. *)
Lemma proxyLine_resolved (workerUrl url basePath targetReferer : string)
      (targetUrl : URL) (uri : string) :
  proxyLine workerUrl url basePath targetReferer targetUrl uri
  = workerUrl ++ "?url="
      ++ encodeURIComponent
           (if startsWith "http" uri then uri
            else if startsWith "/" uri then origin targetUrl ++ uri
            else basePath ++ uri)
      ++ "&referer=" ++ encodeURIComponent targetReferer.
Proof.
  unfold proxyLine, resolve.
  destruct (startsWith "http" uri); simpl negb; cbv iota; [reflexivity|].
  destruct (startsWith "/" uri); reflexivity.
Qed.

(** A line that is neither blank nor a tag is replaced by the proxied URL of
    its trimmed text. *)
Lemma rewriteLine_uri (proxy : string -> string) (line : string) :
  isEmpty (trim line) = false ->
  startsWith "#" (trim line) = false ->
  rewriteLine proxy line = proxy (trim line).
Proof. intros H1 H2. unfold rewriteLine. now rewrite H1, H2. Qed.

(** C8, amended.  A line that is neither blank nor a tag holds a URI, its
    trimmed text.  A URI that begins with the four characters http is used
    as it is; any other URI that begins with / is put after the origin of
    the request URL; any other URI is put after the request URL cut right
    behind its last /.  The line becomes the proxied URL of the result. *)
Theorem uri_lines_resolve_by_prefix
        (workerUrl url targetReferer : string) (targetUrl : URL) (line : string) :
  let uri := trim line in
  let basePath := uptoLast "/" url in
  isEmpty uri = false ->
  startsWith "#" uri = false ->
  rewriteLine (proxyLine workerUrl url basePath targetReferer targetUrl) line
  = workerUrl ++ "?url="
      ++ encodeURIComponent
           (if startsWith "http" uri then uri
            else if startsWith "/" uri then origin targetUrl ++ uri
            else basePath ++ uri)
      ++ "&referer=" ++ encodeURIComponent targetReferer
  /\ exists tail,
      url = basePath ++ tail
      /\ occurs "/" tail = false
      /\ (basePath = "" \/ exists p, basePath = p ++ "/").
Proof.
  intros uri basePath H1 H2. split.
  - rewrite rewriteLine_uri by assumption. apply proxyLine_resolved.
  - apply uptoLast_spec.
Qed.

(** The query of a proxied URL, when the worker's own URL has neither a
    question mark nor a hash. *)
Lemma queryOf_proxied (workerUrl a b : string) :
  occurs "?" workerUrl = false ->
  occurs "#" workerUrl = false ->
  queryOf (workerUrl ++ "?url=" ++ encodeURIComponent a
                     ++ "&referer=" ++ encodeURIComponent b)
  = "url=" ++ encodeURIComponent a ++ "&referer=" ++ encodeURIComponent b.
Proof.
  intros Hq Hh. unfold queryOf.
  rewrite (cut_absent "#").
  - simpl fst.
    change (workerUrl ++ "?url=" ++ encodeURIComponent a ++ "&referer=" ++ encodeURIComponent b)
      with (workerUrl ++ String "?" ("url=" ++ encodeURIComponent a
                                      ++ "&referer=" ++ encodeURIComponent b)).
    now rewrite cut_app.
  - rewrite occurs_app, Hh. cbn [append occurs orb Ascii.eqb Bool.eqb].
    rewrite occurs_app, encodeURIComponent_free by reflexivity.
    cbn [append occurs orb Ascii.eqb Bool.eqb].
    now rewrite encodeURIComponent_free by reflexivity.
Qed.

(** The [url] parameter of a proxied URL decodes to the URL that was
    wrapped. *)
Lemma searchParams_get_proxied (workerUrl a b : string) :
  occurs "?" workerUrl = false ->
  occurs "#" workerUrl = false ->
  searchParams_get (workerUrl ++ "?url=" ++ encodeURIComponent a
                              ++ "&referer=" ++ encodeURIComponent b) "url"
  = Some a.
Proof.
  intros Hq Hh. unfold searchParams_get. rewrite queryOf_proxied by assumption.
  change ("url=" ++ encodeURIComponent a ++ "&referer=" ++ encodeURIComponent b)
    with ("url=" ++ (encodeURIComponent a ++ String "&" ("referer=" ++ encodeURIComponent b))).
  rewrite <- append_assoc.
  rewrite split_app.
  - cbn [lookup]. change (isEmpty ("url=" ++ encodeURIComponent a)) with false.
    cbv iota.
    change ("url=" ++ encodeURIComponent a)
      with ("url" ++ String "=" (encodeURIComponent a)).
    rewrite cut_app by reflexivity.
    change (String.eqb (formDecode "url") "url") with true. cbv iota.
    now rewrite formDecode_encodeURIComponent.
  - rewrite occurs_app. cbn [occurs orb Ascii.eqb Bool.eqb].
    now rewrite encodeURIComponent_free by reflexivity.
Qed.

(** C9, amended.  For a line whose trimmed text begins with the four
    characters http (the code's test of an absolute URI), the rewritten
    line is a proxied URL whose [url] parameter decodes to exactly that
    trimmed text.  The worker's own URL, origin and path, has neither a
    question mark nor a hash. *)
Theorem http_lines_round_trip
        (workerUrl url basePath targetReferer : string) (targetUrl : URL)
        (line : string) :
  occurs "?" workerUrl = false ->
  occurs "#" workerUrl = false ->
  startsWith "http" (trim line) = true ->
  searchParams_get
    (rewriteLine (proxyLine workerUrl url basePath targetReferer targetUrl) line)
    "url"
  = Some (trim line).
Proof.
  intros Hq Hh Hp. pose proof Hp as Hp'.
  assert (H1 : isEmpty (trim line) = false)
    by (destruct (trim line); [discriminate|reflexivity]).
  assert (H2 : startsWith "#" (trim line) = false).
  { destruct (trim line) as [|c r]; [discriminate|].
    cbn [startsWith] in Hp. apply andb_true_iff in Hp. destruct Hp as [E _].
    apply Ascii.eqb_eq in E. subst c. reflexivity. }
  rewrite rewriteLine_uri, proxyLine_resolved by assumption.
  rewrite Hp'. now apply searchParams_get_proxied.
Qed.

End RewriterClaims.

(** ** Facts about the UTF-8 decoder *)

Module Utf8Facts.

Import Str U8 U8Facts Utf8 Http Every.

Local Abbreviation low := (fun b : byte => val b <= 127).

Lemma val_byte_of_ascii (c : ascii) : val (byte_of_ascii c) = code c.
Proof. unfold val. now rewrite ascii_of_byte_of_ascii. Qed.

Lemma low_not_ef (b : byte) : val b <= 127 -> Byte.eqb b xef = false.
Proof.
  intros H. apply byte_eqb_neq. intros ->.
  change (239 <= 127) in H. lia.
Qed.

(** ASCII bytes are decoded to themselves, whatever follows them. *)
Lemma run_low (bs : bytes) :
  Forall low bs ->
  forall tail,
    run (bs ++ tail) None = (bs ++ fst (run tail None), snd (run tail None)).
Proof.
  induction 1 as [|b bs Hb _ IH]; intros tail.
  - simpl. now destruct (run tail None).
  - cbn [app run]. unfold start.
    replace (val b <=? 127) with true by (symmetry; now apply Z.leb_le).
    rewrite IH. reflexivity.
Qed.

Lemma stripBOM_low (b : byte) (r : bytes) :
  val b <= 127 -> stripBOM (b :: r) = b :: r.
Proof.
  intros H. unfold stripBOM. destruct r as [|c [|d r]]; try reflexivity.
  now rewrite (low_not_ef _ H).
Qed.

Lemma string_of_list_byte_app (a b : bytes) :
  string_of_list_byte (a ++ b)
  = (string_of_list_byte a ++ string_of_list_byte b)%string.
Proof.
  induction a as [|x a IH]; [reflexivity|].
  change (string_of_list_byte ((x :: a) ++ b))
    with (String (ascii_of_byte x) (string_of_list_byte (a ++ b))).
  now rewrite IH.
Qed.

Lemma encode_app (a b : string) :
  encode (a ++ b)%string = encode a ++ encode b.
Proof.
  induction a as [|x a IH]; [reflexivity|].
  change (encode (String x a ++ b)%string)
    with (byte_of_ascii x :: encode (a ++ b)%string).
  now rewrite IH.
Qed.

Lemma decode_low (stream : bool) (bs : bytes) :
  Forall low bs -> decode stream bs = string_of_list_byte bs.
Proof.
  intros H. unfold decode.
  pose proof (run_low bs H []) as E. rewrite app_nil_r in E. rewrite E.
  simpl. rewrite app_nil_r. destruct H as [|b r Hb _]; [reflexivity|].
  now rewrite stripBOM_low.
Qed.

Lemma decode_low_prefix (stream : bool) (h x : bytes) :
  Forall low h -> h <> [] ->
  exists t, decode stream (h ++ x) = (string_of_list_byte h ++ t)%string.
Proof.
  intros H Hn. unfold decode. rewrite (run_low h H).
  destruct (run x None) as [o f]. cbn [fst snd].
  destruct H as [|b r Hb _]; [congruence|].
  destruct f as [p|]; [destruct stream|]; cbv zeta iota.
  - exists (string_of_list_byte o). cbn [app].
    rewrite stripBOM_low by assumption.
    now rewrite <- string_of_list_byte_app.
  - exists (string_of_list_byte (o ++ REPL)). rewrite <- app_assoc. cbn [app].
    rewrite stripBOM_low by assumption.
    now rewrite <- string_of_list_byte_app.
  - exists (string_of_list_byte o). cbn [app].
    rewrite stripBOM_low by assumption.
    now rewrite <- string_of_list_byte_app.
Qed.




Lemma encode_low (s : string) :
  every isAscii s = true -> Forall low (encode s).
Proof.
  unfold encode. induction s as [|c s IH]; simpl; intros H; constructor.
  - apply andb_true_iff in H. destruct H as [H _].
    rewrite val_byte_of_ascii. unfold isAscii in H. apply Z.ltb_lt in H. lia.
  - apply andb_true_iff in H. now apply IH.
Qed.

Lemma every_app (p : ascii -> bool) (a b : string) :
  every p (a ++ b)%string = every p a && every p b.
Proof.
  induction a as [|c a IH]; simpl; [reflexivity|].
  now rewrite IH, andb_assoc.
Qed.

(** The decoder of the chunk sizes reads ASCII as it is. *)
Lemma decode_ascii (s : string) :
  every isAscii s = true -> U8.decode (encode s) = s.
Proof.
  intros H. unfold U8.decode. rewrite decode_low by now apply encode_low.
  unfold encode. apply string_of_list_byte_of_string.
Qed.

Lemma decode_ascii_prefix (s r : string) :
  every isAscii s = true -> s <> EmptyString ->
  exists t, U8.decode (encode (s ++ r)%string) = (s ++ t)%string.
Proof.
  intros H Hn. unfold U8.decode. rewrite encode_app.
  destruct (decode_low_prefix false (encode s) (encode r)) as [t Ht].
  - now apply encode_low.
  - destruct s; [congruence|discriminate].
  - exists t. rewrite Ht. unfold encode.
    now rewrite string_of_list_byte_of_string.
Qed.

End Utf8Facts.

(** ** The decoder on writes that end at chunk boundaries *)

Module ChunkedFacts.

Import U8 U8Facts DechunkingStream DechunkFacts Chunked.

(** The sixteen digits: each is read back as its value, is no CR, no white
    space and no sign; and none but 0 can begin a prefix 0x. *)
Lemma hexChar_facts (m : Z) :
  0 <= m < 16 ->
  let a := Uri.hexChar m in
  ParseInt.hexDigit a = Some m
  /\ Ascii.eqb a Str.CR = false
  /\ (forall r, Str.trimStart (String a r) = String a r)
  /\ (forall r, ParseInt.sign (String a r) = (1, String a r))
  /\ (1 <= m -> forall r, ParseInt.stripPrefix (String a r) = String a r).
Proof.
  intros Hm.
  assert (H : m = 0 \/ m = 1 \/ m = 2 \/ m = 3 \/ m = 4 \/ m = 5 \/ m = 6
              \/ m = 7 \/ m = 8 \/ m = 9 \/ m = 10 \/ m = 11 \/ m = 12
              \/ m = 13 \/ m = 14 \/ m = 15) by lia.
  cbv zeta.
  repeat (destruct H as [H|H]; [subst m; repeat split; try reflexivity;
                                 try (intros [|b [|c r]]; reflexivity);
                                 try (intros H1 r; first [lia|reflexivity])|]).
  subst m; repeat split; try reflexivity;
    try (intros [|b [|c r]]; reflexivity); intros H1 r; reflexivity.
Qed.

(** A text that begins with a digit other than 0 is read from its first
    character on. *)
Lemma parseInt16_lead (m : Z) (r : string) :
  1 <= m < 16 ->
  ParseInt.parseInt16 (String (Uri.hexChar m) r)
  = match ParseInt.hexPrefix (String (Uri.hexChar m) r) None with
    | None => NaN
    | Some v => Num v
    end.
Proof.
  intros Hm. unfold ParseInt.parseInt16.
  destruct (hexChar_facts m ltac:(lia)) as (_ & _ & Ht & Hs & Hp).
  rewrite Ht, Hs, Hp by lia.
  destruct (ParseInt.hexPrefix _ None) as [v|]; [|reflexivity].
  now rewrite Z.mul_1_l.
Qed.

(** With a digit ahead, reading starts from nothing as from zero. *)
Lemma hexPrefix_start (c : ascii) (r : string) (d : Z) :
  ParseInt.hexDigit c = Some d ->
  ParseInt.hexPrefix (String c r) None = ParseInt.hexPrefix (String c r) (Some 0).
Proof. intros H. simpl. now rewrite H. Qed.

(** The digits [hexDigits] puts before [acc] carry the number [n]. *)
Lemma hexDigits_value (f : nat) :
  forall (n : Z) (acc : string),
    0 <= n < 16 ^ Z.of_nat f ->
    exists k, 0 <= k /\
      forall a, ParseInt.hexPrefix (hexDigits f n acc) (Some a)
                = ParseInt.hexPrefix acc (Some (a * 16 ^ k + n)).
Proof.
  induction f as [|f IH]; intros n acc Hn.
  - exists 0. split; [lia|]. intros a. simpl in *.
    replace (a * 1 + n) with a by lia. reflexivity.
  - rewrite Nat2Z.inj_succ, Z.pow_succ_r in Hn by lia.
    assert (Hm : 0 <= n mod 16 < 16) by (apply Z.mod_pos_bound; lia).
    destruct (hexChar_facts (n mod 16) Hm) as (Hd & _).
    cbn [hexDigits]. destruct (n / 16 =? 0) eqn:E.
    + apply Z.eqb_eq in E. exists 1. split; [lia|]. intros a.
      cbn [ParseInt.hexPrefix]. rewrite Hd. f_equal. f_equal.
      pose proof (Z.div_mod n 16 ltac:(lia)). lia.
    + apply Z.eqb_neq in E.
      assert (Hq : 0 <= n / 16 < 16 ^ Z.of_nat f).
      { split; [apply Z.div_pos; lia|].
        apply Z.div_lt_upper_bound; lia. }
      destruct (IH (n / 16) (String (Uri.hexChar (n mod 16)) acc) Hq)
        as (k & Hk & Hv).
      exists (k + 1). split; [lia|]. intros a. rewrite Hv.
      cbn [ParseInt.hexPrefix]. rewrite Hd. f_equal. f_equal.
      rewrite Z.pow_add_r, Z.pow_1_r by lia.
      pose proof (Z.div_mod n 16 ltac:(lia)). lia.
Qed.

(** The first digit of a positive number is not 0. *)
Lemma hexDigits_lead (f : nat) :
  forall (n : Z) (acc : string),
    0 < n < 16 ^ Z.of_nat f ->
    exists m r, 1 <= m < 16 /\ hexDigits f n acc = String (Uri.hexChar m) r.
Proof.
  induction f as [|f IH]; intros n acc Hn.
  - simpl in Hn. lia.
  - rewrite Nat2Z.inj_succ, Z.pow_succ_r in Hn by lia.
    assert (Hm : 0 <= n mod 16 < 16) by (apply Z.mod_pos_bound; lia).
    pose proof (Z.div_mod n 16 ltac:(lia)) as Hdm.
    cbn [hexDigits]. destruct (n / 16 =? 0) eqn:E.
    + apply Z.eqb_eq in E. exists (n mod 16), acc. split; [lia|reflexivity].
    + apply Z.eqb_neq in E. apply IH. split.
      * assert (0 <= n / 16) by (apply Z.div_pos; lia). lia.
      * apply Z.div_lt_upper_bound; lia.
Qed.

(** [hexDigits] puts no CR before [acc]. *)
Lemma hexDigits_no_CR (f : nat) :
  forall (n : Z) (acc : string),
    0 <= n ->
    Str.occurs Str.CR (hexDigits f n acc) = Str.occurs Str.CR acc.
Proof.
  induction f as [|f IH]; intros n acc Hn; [reflexivity|].
  assert (Hm : 0 <= n mod 16 < 16) by (apply Z.mod_pos_bound; lia).
  destruct (hexChar_facts (n mod 16) Hm) as (_ & Hc & _).
  cbn [hexDigits]. destruct (n / 16 =? 0).
  - cbn [Str.occurs]. now rewrite Hc.
  - rewrite IH by (apply Z.div_pos; lia). cbn [Str.occurs]. now rewrite Hc.
Qed.

Lemma fuel_enough (k : nat) : Z.of_nat k < 16 ^ Z.of_nat (S k).
Proof.
  induction k as [|k IH]; [reflexivity|].
  rewrite (Nat2Z.inj_succ (S k)), Z.pow_succ_r by lia. lia.
Qed.

(** [parseInt] reads the size line of a non-empty payload as its length. *)
Lemma parseInt16_toHex (n : Z) :
  0 < n -> ParseInt.parseInt16 (toHex n) = Num n.
Proof.
  intros Hn. unfold toHex.
  assert (Hf : 0 < n < 16 ^ Z.of_nat (S (Z.to_nat n))).
  { pose proof (fuel_enough (Z.to_nat n)). lia. }
  destruct (hexDigits_lead _ n EmptyString Hf) as (m & r & Hm & E).
  destruct (hexDigits_value (S (Z.to_nat n)) n EmptyString ltac:(lia))
    as (k & Hk & Hv).
  specialize (Hv 0). rewrite E in Hv |- *.
  rewrite parseInt16_lead by assumption.
  destruct (hexChar_facts m ltac:(lia)) as (Hd & _).
  rewrite (hexPrefix_start _ _ _ Hd), Hv. simpl. reflexivity.
Qed.

(** A text without CR has no CR byte. *)
Lemma encode_no_CR (s : string) :
  Str.occurs Str.CR s = false -> ~ In CR (U8.encode s).
Proof.
  unfold U8.encode, list_byte_of_string.
  induction s as [|a s IH]; simpl; [tauto|].
  intros H [Ha|Hs].
  - apply (f_equal ascii_of_byte) in Ha. rewrite ascii_of_byte_of_ascii in Ha.
    subst a. discriminate H.
  - apply orb_false_iff in H. now apply IH.
Qed.

Lemma size_line_no_CR (n : Z) : 0 <= n -> ~ In CR (U8.encode (toHex n)).
Proof.
  intros Hn. apply encode_no_CR. unfold toHex.
  now rewrite hexDigits_no_CR.
Qed.

(** The digits are ASCII, so the decoder gives the size line back as it
    was written. *)
Lemma hexChar_ascii (m : Z) :
  0 <= m < 16 -> Http.isAscii (Uri.hexChar m) = true.
Proof.
  intros Hm.
  assert (H : m = 0 \/ m = 1 \/ m = 2 \/ m = 3 \/ m = 4 \/ m = 5 \/ m = 6
              \/ m = 7 \/ m = 8 \/ m = 9 \/ m = 10 \/ m = 11 \/ m = 12
              \/ m = 13 \/ m = 14 \/ m = 15) by lia.
  repeat (destruct H as [H|H]; [subst m; reflexivity|]).
  subst m; reflexivity.
Qed.

Lemma hexDigits_ascii (f : nat) :
  forall (n : Z) (acc : string),
    0 <= n ->
    Every.every Http.isAscii acc = true ->
    Every.every Http.isAscii (hexDigits f n acc) = true.
Proof.
  induction f as [|f IH]; intros n acc Hn Ha; [exact Ha|].
  assert (Hm : 0 <= n mod 16 < 16) by (apply Z.mod_pos_bound; lia).
  assert (Ha' : Every.every Http.isAscii (String (Uri.hexChar (n mod 16)) acc) = true)
    by (cbn [Every.every]; now rewrite (hexChar_ascii _ Hm), Ha).
  cbn [hexDigits]. destruct (n / 16 =? 0); [exact Ha'|].
  apply IH; [apply Z.div_pos; lia|exact Ha'].
Qed.

Lemma toHex_ascii (n : Z) : 0 <= n -> Every.every Http.isAscii (toHex n) = true.
Proof. intros Hn. unfold toHex. now apply hexDigits_ascii. Qed.

(** One unit: the size line and then the payload are consumed in two
    passes, and the payload is emitted. *)
Lemma loop_chunk (fuel : nat) (d : t) (c : Controller) (p rest : bytes) :
  state d = size ->
  buffer d = chunk p ++ rest ->
  p <> [] ->
  errored c = None ->
  loop (S (S fuel)) d c
  = loop fuel {| buffer := rest; state := size; chunkSize := Num (len p) |}
              {| emitted := emitted c ++ [p]; errored := None |}.
Proof.
  intros Hs Hb Hp He.
  assert (Hn : 0 < len p).
  { destruct p; [congruence|]. unfold len. simpl List.length. lia. }
  set (line := U8.encode (toHex (len p))).
  assert (Hb' : buffer d = line ++ CR :: (LF :: p ++ CR :: LF :: rest)).
  { rewrite Hb. unfold chunk, Demo.crlf. fold line.
    rewrite <- !app_assoc. reflexivity. }
  assert (Hl : ~ In CR line) by (apply size_line_no_CR; lia).
  set (d1 := {| buffer := p ++ CR :: LF :: rest; state := data;
                chunkSize := Num (len p) |}).
  rewrite (loop_continue (S fuel) d d1 c c).
  - rewrite (loop_continue fuel d1
               {| buffer := rest; state := size; chunkSize := Num (len p) |}
               c {| emitted := emitted c ++ [p]; errored := None |}).
    + reflexivity.
    + unfold d1. simpl buffer. rewrite len_app. pose proof (len_nonneg (CR :: LF :: rest)). lia.
    + rewrite (body_data d1 c (len p)) by (try reflexivity; assumption).
      unfold d1. simpl buffer. rewrite len_app.
      pose proof (len_nonneg (CR :: LF :: rest)).
      replace (len p + len (CR :: LF :: rest) <? len p) with false
        by (symmetry; apply Z.ltb_ge; lia).
      rewrite firstn_len_app.
      replace (len p + 2) with (len p + Z.of_nat 2) by lia.
      rewrite skipn_len_app. reflexivity.
  - rewrite Hb', len_app. pose proof (len_nonneg line).
    unfold len at 2. simpl List.length. lia.
  - rewrite (body_size d c line _ Hs Hb' Hl). cbv zeta.
    unfold line. rewrite Utf8Facts.decode_ascii by (apply toHex_ascii; lia).
    rewrite parseInt16_toHex by assumption.
    simpl isNaN. unfold isZero.
    replace (len p =? 0) with false by (symmetry; apply Z.eqb_neq; lia).
    reflexivity.
Qed.

(** The units of a list of non-empty payloads: two passes each. *)
Lemma loop_units (ps : list bytes) :
  forall (fuel : nat) (d : t) (c : Controller) (rest : bytes),
    state d = size ->
    buffer d = units ps ++ rest ->
    Forall (fun p => p <> []) ps ->
    errored c = None ->
    exists n,
      loop (2 * List.length ps + fuel) d c
      = loop fuel {| buffer := rest; state := size; chunkSize := n |}
                  {| emitted := emitted c ++ ps; errored := None |}.
Proof.
  induction ps as [|p ps IH]; intros fuel d c rest Hs Hb Hne He.
  - exists (chunkSize d). simpl. rewrite app_nil_r.
    destruct d as [bd sd cd], c as [ec rc]. simpl in *. now subst.
  - inversion Hne as [|? ? Hp Hps]; subst.
    replace (2 * List.length (p :: ps) + fuel)%nat
      with (S (S (2 * List.length ps + fuel))) by (simpl; lia).
    rewrite (loop_chunk _ d c p (units ps ++ rest)); try assumption.
    + destruct (IH fuel
                   {| buffer := units ps ++ rest; state := size;
                      chunkSize := Num (len p) |}
                   {| emitted := emitted c ++ [p]; errored := None |}
                   rest eq_refl eq_refl Hps eq_refl) as [n Hn].
      exists n. rewrite Hn. simpl emitted. now rewrite <- app_assoc.
    + rewrite Hb. unfold units. simpl. now rewrite app_assoc.
Qed.

(** A write of whole units to a decoder that waits for a size line with
    nothing buffered: the payloads are emitted and the decoder waits again
    with nothing buffered. *)
Lemma transform_units (d : t) (c : Controller) (ps : list bytes) :
  state d = size ->
  buffer d = [] ->
  Forall (fun p => p <> []) ps ->
  errored c = None ->
  exists n,
    transform d (units ps) c
    = ({| buffer := []; state := size; chunkSize := n |},
       {| emitted := emitted c ++ ps; errored := None |}, Normal).
Proof.
  intros Hs Hb Hne He.
  destruct (loop_units ps 1
              {| buffer := merge (buffer d) (units ps); state := state d;
                 chunkSize := chunkSize d |} c [] Hs
              ltac:(simpl; rewrite Hb; unfold merge; simpl; now rewrite app_nil_r)
              Hne He) as [n Hn].
  exists n. apply (transform_loop (2 * List.length ps + 1)).
  rewrite Hn. reflexivity.
Qed.

(** The same for a sequence of such writes. *)
Lemma pipe_units (groups : list (list bytes)) :
  forall (d : t) (c : Controller) (more : list bytes),
    state d = size ->
    buffer d = [] ->
    Forall (Forall (fun p => p <> [])) groups ->
    errored c = None ->
    exists n,
      pipe (map units groups ++ more) d c
      = pipe more {| buffer := []; state := size; chunkSize := n |}
             {| emitted := emitted c ++ List.concat groups; errored := None |}.
Proof.
  induction groups as [|g groups IH]; intros d c more Hs Hb Hne He.
  - exists (chunkSize d). simpl. rewrite app_nil_r.
    destruct d as [bd sd cd], c as [ec rc]. simpl in *. now subst.
  - inversion Hne as [|? ? Hg Hgs]; subst.
    destruct (transform_units d c g Hs Hb Hg He) as [n Hn].
    simpl. rewrite He, Hn.
    destruct (IH {| buffer := []; state := size; chunkSize := n |}
                 {| emitted := emitted c ++ g; errored := None |}
                 more eq_refl eq_refl Hgs eq_refl) as [n' Hn'].
    exists n'. rewrite Hn'. simpl emitted. now rewrite <- app_assoc.
Qed.

(** The terminator written to a decoder that waits for a size line. *)
Lemma transform_terminator (n : num) (c : Controller) :
  transform {| buffer := []; state := size; chunkSize := n |} terminator c
  = ({| buffer := []; state := footer; chunkSize := Num 0 |}, c, Normal).
Proof. reflexivity. Qed.

End ChunkedFacts.

(** ** The reader of the decoded stream *)

Module DeliverFacts.

Import U8 U8Facts DechunkingStream DechunkFacts.










End DeliverFacts.

(** ** The claims about the decoder *)

Module DechunkClaims.

Import U8 U8Facts DechunkingStream DechunkFacts Demo.

(** C1 (fragmentation-invariance) does not hold of the code.  The encoding
    of the payloads abc and def, written in two parts of which the first
    ends right after the bytes abc: the decoder emits abc as soon as the
    three bytes are there, drops the (absent) line end, and reads the line
    end that comes with the second part as an empty size line.  The stream
    is errored and def is never emitted; written in one part, the same
    bytes give abcdef. *)
Theorem fragmented_chunk_is_lost :
  let payloads := [b "abc"; b "def"] in
  let parts := [ b "3" ++ crlf ++ b "abc";
                 crlf ++ b "3" ++ crlf ++ b "def" ++ crlf ++ b "0" ++ crlf ++ crlf ] in
  List.concat parts = Chunked.encode payloads
  /\ output (snd (pipe [Chunked.encode payloads] new fresh)) = List.concat payloads
  /\ output (snd (pipe parts new fresh)) = b "abc"
  /\ errored (snd (pipe parts new fresh)) = Some "Invalid chunk size: "%string.
Proof. repeat split; reflexivity. Qed.

(** The other cut the decoder does not survive: between the CR and the LF
    of a size line.  [slice(lineEnd + 2)] drops only the CR, and the LF is
    taken for the first byte of the payload. *)
Lemma split_size_line_shifts_payload :
  let parts := [ b "3" ++ [CR]; [LF] ++ b "abc" ++ crlf ++ b "0" ++ crlf ++ crlf ] in
  List.concat parts = Chunked.encode [b "abc"]
  /\ output (snd (pipe parts new fresh)) = [LF] ++ b "ab".
Proof. split; reflexivity. Qed.

(** C3 does not hold of the code: in state DATA with chunk size 3 and only
    the three payload bytes buffered (fewer than 3 + 2), the pass does not
    wait; it emits the three bytes and goes back to state SIZE with an
    empty buffer.  That is where [transform] leaves a fresh decoder given
    the size line and the payload without its line end, and the line end,
    when it comes, is an invalid size line. *)
Theorem data_state_does_not_wait_for_crlf :
  let d := {| buffer := b "abc"; state := data; chunkSize := Num 3 |} in
  let d' := {| buffer := []; state := size; chunkSize := Num 3 |} in
  let c' := {| emitted := [b "abc"]; errored := None |} in
  len (buffer d) < 3 + 2
  /\ body d fresh = Continue d' c'
  /\ transform new (b "3" ++ crlf ++ b "abc") fresh = (d', c', Normal)
  /\ errored (snd (pipe [crlf] d' c')) = Some "Invalid chunk size: "%string.
Proof. repeat split; reflexivity. Qed.

(** C6, amended.  A decoder in state SIZE is given a chunk, and the
    merged buffer holds the units of some payloads and behind them a
    complete size line whose text [parseInt] cannot read: a text without a
    hexadecimal digit behind white space, a sign and 0x.  Then the call
    enqueues the payloads and ends at that line: the controller is errored
    with the message quoting the text, and no chunk written later changes
    the decoder or the controller.  The reader of the stream is given the
    first of the payloads and then the error: the error empties the queue,
    and the payloads enqueued behind the first are lost. *)
Theorem invalid_chunk_size_is_an_error
        (d : t) (chunk : bytes) (c : Controller) (ps : list bytes)
        (line rest : bytes) :
  state d = size ->
  merge (buffer d) chunk = Chunked.units ps ++ line ++ CR :: rest ->
  Forall (fun p => p <> []) ps ->
  ~ In CR line ->
  ParseInt.parseInt16 (decode line) = NaN ->
  errored c = None ->
  let message := ("Invalid chunk size: " ++ decode line)%string in
  let d1 := {| buffer := skipn 1 rest; state := size; chunkSize := NaN |} in
  transform d chunk c
  = (d1, {| emitted := emitted c ++ ps; errored := Some message |}, Normal)
  /\ (forall later,
        pipe (chunk :: later) d c
        = (d1, {| emitted := emitted c ++ ps; errored := Some message |}))
  /\ (forall later,
        deliver (chunk :: later) d = (d1, firstn 1 ps, Some message)).
Proof.
  intros Hs Hb Hne Hn Hp He message d1.
  assert (Ht : forall c0, errored c0 = None ->
             transform d chunk c0
             = (d1, {| emitted := emitted c0 ++ ps; errored := Some message |},
                Normal)).
  { intros c0 H0. apply (transform_loop (2 * List.length ps + 1)).
    destruct (ChunkedFacts.loop_units ps 1
                {| buffer := merge (buffer d) chunk; state := state d;
                   chunkSize := chunkSize d |} c0 (line ++ CR :: rest)
                Hs Hb Hne H0) as [n Hl].
    rewrite Hl. simpl. rewrite len_app.
    assert (H1 := len_nonneg line). assert (H2 := len_nonneg rest).
    replace (0 <? len line + len (CR :: rest)) with true
      by (symmetry; apply Z.ltb_lt; unfold len in *; simpl List.length; lia).
    rewrite (body_size {| buffer := line ++ CR :: rest; state := size;
                          chunkSize := n |}
                       {| emitted := emitted c0 ++ ps; errored := None |}
                       line rest eq_refl eq_refl Hn).
    cbv zeta. rewrite Hp. reflexivity. }
  split; [now apply Ht|]. split.
  - intros later. simpl. rewrite He, (Ht c He).
    now apply (pipe_errored later d1 _ message).
  - intros later. cbn [deliver]. rewrite (Ht fresh eq_refl). reflexivity.
Qed.

(** The units of a and b and then the line zz, in one write to a fresh
    decoder: a and b are enqueued, the reader is given a and the error. *)
Lemma invalid_chunk_size_zz :
  let chunk := Chunked.units [b "a"; b "b"] ++ b "zz" ++ crlf in
  let d1 := {| buffer := []; state := size; chunkSize := NaN |} in
  transform new chunk fresh
  = (d1, {| emitted := [b "a"; b "b"];
            errored := Some "Invalid chunk size: zz"%string |}, Normal)
  /\ (forall later,
        pipe (chunk :: later) new fresh
        = (d1, {| emitted := [b "a"; b "b"];
                  errored := Some "Invalid chunk size: zz"%string |}))
  /\ (forall later,
        deliver (chunk :: later) new
        = (d1, [b "a"], Some "Invalid chunk size: zz"%string)).
Proof.
  apply (invalid_chunk_size_is_an_error
           new (Chunked.units [b "a"; b "b"] ++ b "zz" ++ crlf) fresh
           [b "a"; b "b"] (b "zz") [LF]).
  - reflexivity.
  - reflexivity.
  - repeat constructor; discriminate.
  - simpl. intros [H|[H|[]]]; discriminate H.
  - reflexivity.
  - reflexivity.
Defined.

(** C6 as stated fails.  The size line 1zz is no number in hexadecimal,
    and the decoder takes it for the size 1: no error, and the payload is
    enqueued.  And an error does take back what was enqueued: after the
    units of a and b and the line zz in one write, b has been enqueued and
    the reader is never given it. *)
Lemma size_line_1zz_is_read_as_1 :
  let unit := b "1zz" ++ crlf ++ b "a" ++ crlf in
  let write := Chunked.units [b "a"; b "b"] ++ b "zz" ++ crlf in
  Chunked.hexadecimal "1zz" = false
  /\ snd (pipe [unit] new fresh) = {| emitted := [b "a"]; errored := None |}
  /\ deliver [unit] new
     = ({| buffer := []; state := size; chunkSize := Num 1 |}, [b "a"], None)
  /\ emitted (snd (pipe [write] new fresh)) = [b "a"; b "b"]
  /\ snd (fst (deliver [write] new)) = [b "a"].
Proof. repeat split; reflexivity. Qed.

(** C7.  A decoder in state SIZE is given a chunk, and the merged buffer
    starts with a size line of value zero that an empty line follows at
    once.  Then the call ends with the decoder in state FOOTER and its
    buffer empty (the bytes behind the empty line are dropped), nothing
    enqueued and no error; and whatever chunks are written later, the
    controller stays as it is and the decoder stays in state FOOTER.  With
    an empty [chunk], [d] is any point the loop reaches within a call. *)
Theorem nothing_is_emitted_after_the_terminal_footer
        (d : t) (chunk : bytes) (c : Controller) (line rest : bytes) (fuel : nat) :
  state d = size ->
  merge (buffer d) chunk = line ++ CR :: LF :: CR :: LF :: rest ->
  ~ In CR line ->
  ParseInt.parseInt16 (decode line) = Num 0 ->
  errored c = None ->
  let d0 := {| buffer := merge (buffer d) chunk;
               state := state d; chunkSize := chunkSize d |} in
  let d1 := {| buffer := []; state := footer; chunkSize := Num 0 |} in
  (passes d0 < fuel)%nat ->
  loop fuel d0 c = Some (d1, c, Normal)
  /\ transform d chunk c = (d1, c, Normal)
  /\ forall later,
      exists d2, pipe (chunk :: later) d c = (d2, c) /\ state d2 = footer.
Proof.
  intros Hs Hb Hn Hp He d0 d1 Hf.
  assert (H3 : loop 3 d0 c = Some (d1, c, Normal)).
  { assert (H0 := len_nonneg line). assert (H1 := len_nonneg rest).
    rewrite (loop_continue 2 d0
               {| buffer := CR :: LF :: rest; state := footer; chunkSize := Num 0 |}
               c c).
    - reflexivity.
    - unfold d0. simpl buffer. rewrite Hb, len_app.
      unfold len in *. simpl List.length. lia.
    - rewrite (body_size d0 c line (LF :: CR :: LF :: rest) Hs Hb Hn).
      cbv zeta. rewrite Hp. reflexivity. }
  assert (Hl : loop fuel d0 c = Some (d1, c, Normal)).
  { apply (loop_fuel_le 3); [|exact H3].
    unfold passes, d0 in Hf. simpl buffer in Hf.
    rewrite Hb, length_app in Hf. simpl in Hf. lia. }
  assert (Ht : transform d chunk c = (d1, c, Normal))
    by (apply (transform_loop fuel); exact Hl).
  split; [exact Hl|]. split; [exact Ht|].
  intros later. simpl. rewrite He, Ht. now apply pipe_footer.
Qed.

(** The bytes 0 CR LF CR LF followed by xyz, written to a fresh decoder,
    and any chunks after them. *)
Lemma terminal_footer_then_more :
  let chunk := b "0" ++ crlf ++ crlf ++ b "xyz" in
  let d1 := {| buffer := []; state := footer; chunkSize := Num 0 |} in
  loop 17 {| buffer := chunk; state := size; chunkSize := Num 0 |} fresh
    = Some (d1, fresh, Normal)
  /\ transform new chunk fresh = (d1, fresh, Normal)
  /\ forall later,
      exists d2, pipe (chunk :: later) new fresh = (d2, fresh) /\ state d2 = footer.
Proof.
  apply (nothing_is_emitted_after_the_terminal_footer
           new (b "0" ++ crlf ++ crlf ++ b "xyz") fresh (b "0") (b "xyz") 17).
  - reflexivity.
  - reflexivity.
  - simpl. intros [H|[]]; discriminate H.
  - reflexivity.
  - reflexivity.
  - vm_compute. lia.
Defined.

(** [transform] returns for every decoder, chunk and controller: the loop
    ends within the bound [passes] of the merged buffer, and its result is
    what [transform] returns. *)
Theorem transform_terminates (d : t) (chunk : bytes) (c : Controller) :
  let d0 := {| buffer := merge (buffer d) chunk;
               state := state d; chunkSize := chunkSize d |} in
  exists r, loop (S (passes d0)) d0 c = Some r /\ transform d chunk c = r.
Proof.
  intros d0. destruct (loop_total (S (passes d0)) d0 c) as [r Hr]; [lia|].
  exists r. split; [exact Hr|]. now apply (transform_loop (S (passes d0))).
Qed.

(** Writes that end at chunk boundaries are decoded right.  The body is a
    sequence of non-empty payloads; each write holds the units of some of
    them, whole, and the last write is the terminator.  Then the writes put
    together are the chunked encoding of the payloads, the decoder emits
    exactly the payloads, in order, and ends in state FOOTER with nothing
    buffered and no error. *)
Theorem whole_chunk_writes_are_decoded (groups : list (list bytes)) :
  Forall (Forall (fun p => p <> [])) groups ->
  let parts := map Chunked.units groups ++ [Chunked.terminator] in
  List.concat parts = Chunked.encode (List.concat groups)
  /\ pipe parts new fresh
     = ({| buffer := []; state := footer; chunkSize := Num 0 |},
        {| emitted := List.concat groups; errored := None |}).
Proof.
  intros Hne parts. split.
  - unfold parts, Chunked.encode, Chunked.units.
    rewrite concat_app. cbn [List.concat]. rewrite app_nil_r. f_equal.
    clear Hne parts. induction groups as [|g groups IH]; [reflexivity|].
    cbn [List.concat map]. now rewrite map_app, concat_app, IH.
  - destruct (ChunkedFacts.pipe_units groups new fresh [Chunked.terminator]
                eq_refl eq_refl Hne eq_refl) as [n Hn].
    unfold parts. rewrite Hn. cbn [pipe errored].
    now rewrite ChunkedFacts.transform_terminator.
Qed.

(** The payloads abc, de and f, written as the unit of abc, then the units
    of de and f, then the terminator. *)
Lemma three_payloads_in_whole_units :
  let groups := [[b "abc"]; [b "de"; b "f"]] in
  let parts := map Chunked.units groups ++ [Chunked.terminator] in
  List.concat parts = Chunked.encode [b "abc"; b "de"; b "f"]
  /\ pipe parts new fresh
     = ({| buffer := []; state := footer; chunkSize := Num 0 |},
        {| emitted := [b "abc"; b "de"; b "f"]; errored := None |}).
Proof.
  apply (whole_chunk_writes_are_decoded [[b "abc"]; [b "de"; b "f"]]).
  repeat constructor; discriminate.
Defined.

End DechunkClaims.

(** ** The claims at concrete requests *)

Module Instances.

Import Str Uri Worker Spec Demo.
Local Open Scope string_scope.


(** C4 as stated fails.  The target URL has .m3u8 in the middle of its
    path and does not end with it, and the content type is video/mp2t: the
    claim has the body streamed through, the code buffers it and rewrites it
    line by line as if it were a playlist. *)
Lemma segment_below_m3u8_directory_is_rewritten :
  let url := "https://cdn.example/live.m3u8/seg-1.ts" in
  let r := snd (Demo.fetch 200 [("Content-Type", "video/mp2t")] "segment"
                           (Demo.get url None)) in
  endsWith ".m3u8" url = false
  /\ includes "mpegurl" "video/mp2t" = false
  /\ body Demo.Stream r <> Streamed Demo.Stream "segment"
  /\ body Demo.Stream r
     = Text Demo.Stream
         ("https://proxy.example/proxy?url=https%3A%2F%2Fcdn.example%2Flive.m3u8%2Fsegment"
          ++ "&referer=https%3A%2F%2Fmegacloud.tv%2Fembed-2%2Fe-1%2F").
Proof. repeat split; try reflexivity. discriminate. Qed.

(** The theorem of C4 at a playlist served as text/plain from a URL with a
    query behind .m3u8, and at a segment. *)
Lemma playlist_with_query_is_rewritten :
  let req := Demo.get "https://cdn.example/show/index.m3u8?token=1" None in
  let up200 (ct b : string) :=
    mkUpstream Demo.Stream 200 [("Content-Type", ct)] true (Some b) in
  pipeline Demo.Stream Demo.text req "https://cdn.example/show/index.m3u8?token=1"
           embed manifestTarget (up200 "text/plain" "1.ts")
  = Ok {| status := 200;
          headers := [("Content-Type", "text/plain");
                      ("Access-Control-Allow-Origin", "*");
                      ("X-Proxy-Version", "1.2.1-no-origin")];
          body := Text Demo.Stream
                    ("https://proxy.example/proxy?url=https%3A%2F%2Fcdn.example%2Fshow%2F1.ts"
                     ++ "&referer=https%3A%2F%2Fmegacloud.tv%2Fembed-2%2Fe-1%2F") |}
  /\ pipeline Demo.Stream Demo.text req "https://cdn.example/show/1.ts"
              embed manifestTarget (up200 "video/mp2t" "segment")
     = Ok {| status := 200;
             headers := [("Content-Type", "video/mp2t");
                         ("Access-Control-Allow-Origin", "*");
                         ("X-Proxy-Version", "1.2.1-no-origin")];
             body := Streamed Demo.Stream "segment" |}.
Proof.
  intros req up200. split.
  - destruct (WorkerClaims.playlist_iff_mpegurl_or_m3u8_anywhere
                Demo.Stream Demo.text req
                "https://cdn.example/show/index.m3u8?token=1"
                embed manifestTarget (up200 "text/plain" "1.ts")
                (or_introl eq_refl)) as [E _].
    rewrite E. reflexivity.
  - destruct (WorkerClaims.playlist_iff_mpegurl_or_m3u8_anywhere
                Demo.Stream Demo.text req "https://cdn.example/show/1.ts"
                embed manifestTarget (up200 "video/mp2t" "segment")
                (or_introl eq_refl)) as [E _].
    rewrite E. reflexivity.
Defined.

(** C5 as stated fails.  The port of this target is 22281, not 2228, and
    its host name is none of the listed ones, yet the raw socket is
    selected: the text of the URL contains :2228. *)
Lemma port_22281_goes_over_the_raw_socket :
  let url := "https://example.com:22281/x" in
  let targetUrl := {| hostname := "example.com"; port := "22281";
                      pathname := "/x"; origin := "https://example.com:22281" |} in
  Demo.parse url = Ok targetUrl
  /\ String.eqb (port targetUrl) "2228" = false
  /\ existsb (fun name => includes name (hostname targetUrl)) denylist = false
  /\ select url targetUrl = RAW_SOCKET.
Proof. repeat split; reflexivity. Qed.

(** C8 as stated fails.  An absolute URI whose scheme is written in capital
    letters does not begin with the characters http: it is not used as it
    is but put after the base directory.  And a relative URI that begins
    with the characters http is used as it is, not resolved against the
    base directory. *)
Lemma absolute_uri_is_resolved_as_relative :
  let basePath := uptoLast "/" manifestUrl in
  Demo.parse manifestUrl = Ok manifestTarget
  /\ isAbsoluteURI "HTTPS://cdn.example/seg/1.ts" = true
  /\ resolve manifestUrl basePath manifestTarget "HTTPS://cdn.example/seg/1.ts"
     = "https://cdn.example/show/HTTPS://cdn.example/seg/1.ts"
  /\ isAbsoluteURI "httpd/1.ts" = false
  /\ resolve manifestUrl basePath manifestTarget "httpd/1.ts" = "httpd/1.ts".
Proof. repeat split; reflexivity. Qed.

(** The theorem of C8 at the two examples of the specification: the
    root-relative /seg/1.ts and the relative 1.ts, in the manifest
    https://cdn.example/show/index.m3u8. *)
Lemma seg_1_ts_resolutions :
  let proxy := proxyLine workerUrl manifestUrl (uptoLast "/" manifestUrl)
                         embed manifestTarget in
  rewriteLine proxy "/seg/1.ts"
  = workerUrl ++ "?url=" ++ encodeURIComponent "https://cdn.example/seg/1.ts"
      ++ "&referer=" ++ encodeURIComponent embed
  /\ rewriteLine proxy "1.ts"
     = workerUrl ++ "?url=" ++ encodeURIComponent "https://cdn.example/show/1.ts"
         ++ "&referer=" ++ encodeURIComponent embed.
Proof.
  split.
  - destruct (RewriterClaims.uri_lines_resolve_by_prefix
                workerUrl manifestUrl embed manifestTarget "/seg/1.ts"
                eq_refl eq_refl) as [E _].
    exact E.
  - destruct (RewriterClaims.uri_lines_resolve_by_prefix
                workerUrl manifestUrl embed manifestTarget "1.ts"
                eq_refl eq_refl) as [E _].
    exact E.
Defined.

(** C9 as stated fails.  The line holds an absolute URI of scheme ftp; the
    [url] parameter of the rewritten line decodes to that URI put after the
    base directory of the manifest, not to the URI. *)
Lemma absolute_ftp_uri_does_not_round_trip :
  let line := "ftp://cdn.example/seg/1.ts" in
  let proxy := proxyLine workerUrl manifestUrl (uptoLast "/" manifestUrl)
                         embed manifestTarget in
  isAbsoluteURI line = true
  /\ searchParams_get (rewriteLine proxy line) "url"
     = Some "https://cdn.example/show/ftp://cdn.example/seg/1.ts"
  /\ searchParams_get (rewriteLine proxy line) "url" <> Some line.
Proof. repeat split; try reflexivity. discriminate. Qed.

(** The theorem of C9 at a line with blanks around an absolute URL that
    has a blank, an ampersand and a percent sign in it. *)
Lemma absolute_url_round_trips :
  let line := "  https://a.example/x y.ts?a=1&b=100%  " in
  let proxy := proxyLine workerUrl manifestUrl (uptoLast "/" manifestUrl)
                         embed manifestTarget in
  searchParams_get (rewriteLine proxy line) "url"
  = Some "https://a.example/x y.ts?a=1&b=100%".
Proof.
  apply (RewriterClaims.http_lines_round_trip
           workerUrl manifestUrl (uptoLast "/" manifestUrl) embed manifestTarget
           "  https://a.example/x y.ts?a=1&b=100%  ");
    reflexivity.
Defined.

(** The theorem of C10 at a request for a playlist on cdn.dotstream.buzz
    that names another referer. *)
Lemma dotstream_request_with_other_referer :
  let url := "https://cdn.dotstream.buzz/v/index.m3u8" in
  let req := Demo.get url (Some "https://other.example/") in
  let out := Demo.fetch 200 [("Content-Type", "application/vnd.apple.mpegurl")]
                        "seg-1.ts" req in
  map transport (fst out) = [NATIVE]
  /\ map (fun c => Headers.get (sent c) "Referer") (fst out)
     = [Some "https://megaplay.buzz/"]
  /\ body Demo.Stream (snd out)
     = Text Demo.Stream
         ("https://proxy.example/proxy?url=https%3A%2F%2Fcdn.dotstream.buzz%2Fv%2Fseg-1.ts"
          ++ "&referer=https%3A%2F%2Fmegaplay.buzz%2F").
Proof.
  intros url req out.
  destruct (WorkerClaims.dotstream_referer_is_megaplay
              Demo.Stream Demo.parse Demo.text
              (Demo.socketAnswers 200 [("Content-Type", "application/vnd.apple.mpegurl")] "seg-1.ts")
              (Demo.nativeAnswers 200 [("Content-Type", "application/vnd.apple.mpegurl")] "seg-1.ts")
              req url
              {| hostname := "cdn.dotstream.buzz"; port := "";
                 pathname := "/v/index.m3u8"; origin := "https://cdn.dotstream.buzz" |}
              {| hostname := "megaplay.buzz"; port := "";
                 pathname := "/"; origin := "https://megaplay.buzz" |}
              eq_refl eq_refl eq_refl eq_refl eq_refl eq_refl)
    as (_ & _ & Hcalls & Hresp & _).
  unfold out, Demo.fetch. rewrite Hcalls, Hresp.
  repeat split; reflexivity.
Defined.

End Instances.

(** ** More about the decoder *)

Module DechunkMore.

Import U8 U8Facts DechunkingStream DechunkFacts Waiting.

(** A pass only ever adds to what was emitted. *)
Lemma body_extends (d : t) (c : Controller) :
  match body d c with
  | Continue _ c' | Break _ c' | Return _ c' | Throw _ c' _ =>
      exists more, emitted c' = emitted c ++ more
  end.
Proof.
  unfold body. destruct (state d).
  - destruct (indexOf (buffer d) CR =? -1); [exists []; now rewrite app_nil_r|].
    destruct (isNaN _).
    + unfold error. destruct (errored c); exists []; simpl; now rewrite app_nil_r.
    + destruct (isZero _); exists []; now rewrite app_nil_r.
  - destruct (ltNum _ _); [exists []; now rewrite app_nil_r|].
    unfold enqueue. destruct (errored c).
    + exists []. now rewrite app_nil_r.
    + eexists. reflexivity.
  - destruct (indexOf (buffer d) CR =? -1); exists []; now rewrite app_nil_r.
Qed.

Lemma loop_extends (fuel : nat) :
  forall d c d' c' k,
    loop fuel d c = Some (d', c', k) ->
    exists more, emitted c' = emitted c ++ more.
Proof.
  induction fuel as [|f IH]; intros d c d' c' k; simpl;
    destruct (0 <? len (buffer d)); try discriminate;
    try (intros [= <- <- <-]; exists []; now rewrite app_nil_r).
  pose proof (body_extends d c) as Hb.
  destruct (body d c) as [d1 c1|d1 c1|d1 c1|d1 c1 m]; destruct Hb as [m1 H1].
  - intros H. destruct (IH _ _ _ _ _ H) as [m2 H2].
    exists (m1 ++ m2). now rewrite H2, H1, app_assoc.
  - intros [= <- <- <-]. now exists m1.
  - intros [= <- <- <-]. now exists m1.
  - intros [= <- <- <-]. now exists m1.
Qed.

Lemma transform_extends (d : t) (chunk : bytes) (c : Controller) :
  exists more, emitted (snd (fst (transform d chunk c))) = emitted c ++ more.
Proof.
  unfold transform.
  destruct (loop _ _ c) as [[[d' c'] k]|] eqn:E.
  - simpl. now apply (loop_extends _ _ _ _ _ _ E).
  - exists []. simpl. now rewrite app_nil_r.
Qed.

(** Writing in two goes is writing in one. *)
Lemma pipe_app (cs1 cs2 : list bytes) :
  forall d c,
    pipe (cs1 ++ cs2) d c
    = pipe cs2 (fst (pipe cs1 d c)) (snd (pipe cs1 d c)).
Proof.
  induction cs1 as [|x cs1 IH]; intros d c; [reflexivity|].
  simpl. destruct (errored c) eqn:E.
  - simpl. now rewrite (pipe_errored cs2 d c s).
  - destruct (transform d x c) as [[d' c'] [|m]]; [apply IH|].
    simpl. unfold error. destruct (errored c') eqn:E'.
    + now rewrite (pipe_errored cs2 d' c' s).
    + now rewrite (pipe_errored cs2 d' _ m).
Qed.

Lemma pipe_extends (cs : list bytes) :
  forall d c, exists more, emitted (snd (pipe cs d c)) = emitted c ++ more.
Proof.
  induction cs as [|x cs IH]; intros d c; simpl.
  - exists []. now rewrite app_nil_r.
  - destruct (errored c); [exists []; simpl; now rewrite app_nil_r|].
    destruct (transform_extends d x c) as [m1 H1].
    destruct (transform d x c) as [[d' c'] [|m]]; simpl in H1.
    + destruct (IH d' c') as [m2 H2]. exists (m1 ++ m2).
      now rewrite H2, H1, app_assoc.
    + exists m1. simpl. unfold error. now destruct (errored c').
Qed.


(** The loop stops only where the decoder waits, unless the stream is
    errored. *)
Lemma loop_waits (fuel : nat) :
  forall d c d' c',
    loop fuel d c = Some (d', c', Normal) ->
    errored c' = None ->
    waiting d'.
Proof.
  induction fuel as [|f IH]; intros d c d' c'; simpl;
    destruct (0 <? len (buffer d)) eqn:Hb; try discriminate.
  - intros [= <- <-] _. left. apply Z.ltb_ge in Hb. unfold len in Hb.
    destruct (buffer d); [reflexivity|simpl in Hb; lia].
  - unfold body. destruct (state d) eqn:Hs.
    + destruct (indexOf (buffer d) CR =? -1) eqn:Hi.
      * intros [= <- <-] _. right. left. apply Z.eqb_eq in Hi. auto.
      * destruct (isNaN _).
        -- intros [= <- <-]. unfold error. destruct (errored c) eqn:He.
           ++ congruence.
           ++ discriminate.
        -- destruct (isZero _); apply IH.
    + destruct (ltNum _ _) eqn:Hl.
      * intros [= <- <-] _. right. right. right. auto.
      * destruct (enqueue c _); [apply IH|discriminate].
    + destruct (indexOf (buffer d) CR =? -1) eqn:Hi.
      * intros [= <- <-] _. right. right. left. apply Z.eqb_eq in Hi. auto.
      * apply IH.
  - intros [= <- <-] _. left. apply Z.ltb_ge in Hb. unfold len in Hb.
    destruct (buffer d); [reflexivity|simpl in Hb; lia].
Qed.

(** Every complete unit is drained before [transform] returns: after a
    call that ends without an exception and leaves the stream unerrored,
    the decoder holds nothing, or a line without its CR (in state SIZE or
    FOOTER), or fewer bytes than the chunk size (in state DATA). *)
Theorem transform_drains_every_complete_unit
        (d : t) (chunk : bytes) (c : Controller) (d' : t) (c' : Controller) :
  transform d chunk c = (d', c', Normal) ->
  errored c' = None ->
  waiting d'.
Proof.
  intros Ht He.
  destruct (loop_total (S (passes {| buffer := merge (buffer d) chunk;
                                     state := state d;
                                     chunkSize := chunkSize d |}))
                       {| buffer := merge (buffer d) chunk;
                          state := state d; chunkSize := chunkSize d |} c)
    as [[[d1 c1] k] Hl]; [lia|].
  pose proof (transform_loop _ _ _ _ _ Hl) as Ht'.
  rewrite Ht in Ht'. injection Ht' as <- <- <-.
  exact (loop_waits _ _ _ _ _ Hl He).
Qed.

(** A write that ends in the middle of the second payload: the first
    payload is emitted, and the decoder waits in state DATA with the two
    bytes it has of the second. *)
Lemma partial_payload_waits :
  waiting {| buffer := Demo.b "de"; state := data; chunkSize := Num 3 |}.
Proof.
  apply (transform_drains_every_complete_unit
           new
           (Demo.b "3" ++ Demo.crlf ++ Demo.b "abc" ++ Demo.crlf
            ++ Demo.b "3" ++ Demo.crlf ++ Demo.b "de")
           fresh _
           {| emitted := [Demo.b "abc"]; errored := None |});
    reflexivity.
Defined.

(** [hexDigits] puts its digits before [acc] and leaves [acc] alone. *)
Lemma hexDigits_acc (f : nat) :
  forall (n : Z) (acc : string),
    Chunked.hexDigits f n acc
    = (Chunked.hexDigits f n EmptyString ++ acc)%string.
Proof.
  induction f as [|f IH]; intros n acc; [reflexivity|].
  cbn [Chunked.hexDigits]. destruct (n / 16 =? 0); [reflexivity|].
  rewrite (IH _ (String _ acc)), (IH _ (String _ EmptyString)).
  now rewrite StrFacts.append_assoc.
Qed.

(** [parseInt] stops at the semicolon of a chunk extension. *)
Lemma parseInt16_ext (n : Z) (ext : string) :
  0 < n ->
  ParseInt.parseInt16 (Chunked.toHex n ++ String ";" ext) = Num n.
Proof.
  intros Hn. unfold Chunked.toHex. rewrite <- hexDigits_acc.
  assert (Hf : 0 < n < 16 ^ Z.of_nat (S (Z.to_nat n))).
  { pose proof (ChunkedFacts.fuel_enough (Z.to_nat n)). lia. }
  destruct (ChunkedFacts.hexDigits_lead _ n (String ";" ext) Hf)
    as (m & r & Hm & E).
  destruct (ChunkedFacts.hexDigits_value (S (Z.to_nat n)) n (String ";" ext)
              ltac:(lia)) as (k & Hk & Hv).
  specialize (Hv 0). rewrite E in Hv |- *.
  rewrite ChunkedFacts.parseInt16_lead by assumption.
  destruct (ChunkedFacts.hexChar_facts m ltac:(lia)) as (Hd & _).
  rewrite (ChunkedFacts.hexPrefix_start _ _ _ Hd), Hv. reflexivity.
Qed.

(** A unit under any size line that has no CR and that [parseInt] reads as
    the length of the payload. *)
Lemma loop_unit (fuel : nat) (d : t) (c : Controller) (line : string)
      (p rest : bytes) :
  state d = size ->
  buffer d = encode line ++ Demo.crlf ++ p ++ Demo.crlf ++ rest ->
  Str.occurs Str.CR line = false ->
  ParseInt.parseInt16 (decode (encode line)) = Num (len p) ->
  p <> [] ->
  errored c = None ->
  loop (S (S fuel)) d c
  = loop fuel {| buffer := rest; state := size; chunkSize := Num (len p) |}
              {| emitted := emitted c ++ [p]; errored := None |}.
Proof.
  intros Hs Hb Hc Hparse Hp He.
  assert (Hn : 0 < len p).
  { destruct p; [congruence|]. unfold len. simpl List.length. lia. }
  assert (Hb' : buffer d = encode line ++ CR :: (LF :: p ++ CR :: LF :: rest)).
  { rewrite Hb. reflexivity. }
  assert (Hl : ~ In CR (encode line)) by now apply ChunkedFacts.encode_no_CR.
  set (d1 := {| buffer := p ++ CR :: LF :: rest; state := data;
                chunkSize := Num (len p) |}).
  rewrite (loop_continue (S fuel) d d1 c c).
  - rewrite (loop_continue fuel d1
               {| buffer := rest; state := size; chunkSize := Num (len p) |}
               c {| emitted := emitted c ++ [p]; errored := None |}).
    + reflexivity.
    + unfold d1. simpl buffer. rewrite len_app.
      pose proof (len_nonneg (CR :: LF :: rest)). lia.
    + rewrite (body_data d1 c (len p)) by (try reflexivity; assumption).
      unfold d1. simpl buffer. rewrite len_app.
      pose proof (len_nonneg (CR :: LF :: rest)).
      replace (len p + len (CR :: LF :: rest) <? len p) with false
        by (symmetry; apply Z.ltb_ge; lia).
      rewrite firstn_len_app.
      replace (len p + 2) with (len p + Z.of_nat 2) by lia.
      rewrite skipn_len_app. reflexivity.
  - rewrite Hb', len_app. pose proof (len_nonneg (encode line)).
    unfold len at 2. simpl List.length. lia.
  - rewrite (body_size d c (encode line) _ Hs Hb' Hl). cbv zeta.
    rewrite Hparse. simpl isNaN. unfold isZero.
    replace (len p =? 0) with false by (symmetry; apply Z.eqb_neq; lia).
    reflexivity.
Qed.

(** Chunk extensions are ignored.  A decoder that waits for a size line
    with nothing buffered is given a unit whose size line carries a
    semicolon and any extension text without CR behind the size: it emits
    the (non-empty) payload and waits for the next size line, as it does
    for the unit without the extension. *)
Theorem chunk_extension_is_ignored
        (d : t) (c : Controller) (ext : string) (p : bytes) :
  state d = size ->
  buffer d = [] ->
  errored c = None ->
  p <> [] ->
  Str.occurs Str.CR ext = false ->
  transform d (chunkExt ext p) c
  = ({| buffer := []; state := size; chunkSize := Num (len p) |},
     {| emitted := emitted c ++ [p]; errored := None |}, Normal)
  /\ transform d (chunkExt ext p) c = transform d (Chunked.chunk p) c.
Proof.
  intros Hs Hb He Hp Hx.
  assert (Hn : 0 < len p).
  { destruct p; [congruence|]. unfold len. simpl List.length. lia. }
  assert (H1 : transform d (chunkExt ext p) c
               = ({| buffer := []; state := size; chunkSize := Num (len p) |},
                  {| emitted := emitted c ++ [p]; errored := None |}, Normal)).
  { apply (transform_loop 3).
    rewrite (loop_unit 1 _ c (Chunked.toHex (len p) ++ String ";" ext) p []).
    - reflexivity.
    - exact Hs.
    - simpl buffer. rewrite Hb. unfold merge, chunkExt. simpl app at 1.
      now rewrite app_nil_r.
    - rewrite StrFacts.occurs_app. unfold Chunked.toHex.
      rewrite ChunkedFacts.hexDigits_no_CR by lia.
      cbn [Str.occurs orb]. now rewrite Hx.
    - destruct (Utf8Facts.decode_ascii_prefix
                  (Chunked.toHex (len p) ++ ";") ext) as [t Ht].
      + rewrite Utf8Facts.every_app, ChunkedFacts.toHex_ascii by lia.
        reflexivity.
      + destruct (Chunked.toHex (len p)); discriminate.
      + rewrite StrFacts.append_assoc in Ht. cbn [append] in Ht.
        rewrite Ht, StrFacts.append_assoc. cbn [append].
        now apply parseInt16_ext.
    - exact Hp.
    - exact He. }
  split; [exact H1|]. rewrite H1. symmetry.
  apply (transform_loop 3).
  rewrite (ChunkedFacts.loop_chunk 1 _ c p []).
  - reflexivity.
  - exact Hs.
  - simpl buffer. rewrite Hb. unfold merge. simpl app at 1.
    now rewrite app_nil_r.
  - exact Hp.
  - exact He.
Qed.

(** The unit of the payload abc with the extension name=value. *)
Lemma extension_name_value :
  transform new (chunkExt "name=value" (Demo.b "abc")) fresh
  = ({| buffer := []; state := size; chunkSize := Num 3 |},
     {| emitted := [Demo.b "abc"]; errored := None |}, Normal).
Proof.
  apply (chunk_extension_is_ignored new fresh "name=value" (Demo.b "abc"));
    try reflexivity.
  discriminate.
Defined.

End DechunkMore.

(** ** More about the manifest rewriter *)

Module RewriterMore.

Import Str Uri Worker Every StrFacts.
Local Open Scope string_scope.

Lemma split_absent (sep : ascii) (s : string) :
  occurs sep s = false -> split sep s = [s].
Proof.
  induction s as [|a s IH]; simpl; [reflexivity|].
  destruct (Ascii.eqb a sep); simpl; [discriminate|].
  intros H. now rewrite IH.
Qed.

(** No piece of a split has the separator. *)
Lemma split_free (sep : ascii) (s : string) :
  Forall (fun x => occurs sep x = false) (split sep s).
Proof.
  induction s as [|a s IH]; simpl.
  - repeat constructor.
  - destruct (Ascii.eqb a sep) eqn:E.
    + constructor; [reflexivity|exact IH].
    + destruct (split sep s) as [|x r]; inversion IH; subst.
      * repeat constructor. simpl. now rewrite E.
      * constructor; [simpl; now rewrite E|assumption].
Qed.

Lemma split_nonempty (sep : ascii) (s : string) : split sep s <> [].
Proof.
  destruct s as [|a s]; simpl; [discriminate|].
  destruct (Ascii.eqb a sep); [discriminate|].
  destruct (split sep s); discriminate.
Qed.

(** Splitting undoes joining, for pieces without the separator. *)
Lemma split_join (sep : ascii) (l : list string) :
  l <> [] ->
  Forall (fun x => occurs sep x = false) l ->
  split sep (join (String sep "") l) = l.
Proof.
  induction l as [|x r IH]; [congruence|]. intros _ H.
  inversion H as [|? ? Hx Hr]; subst.
  destruct r as [|y r].
  - simpl. now apply split_absent.
  - change (join (String sep "") (x :: y :: r))
      with (x ++ String sep (join (String sep "") (y :: r))).
    rewrite split_app by assumption. f_equal. apply IH; [discriminate|assumption].
Qed.

Lemma occurs_rev_acc (c : ascii) (s acc : string) :
  occurs c (rev_acc s acc) = occurs c s || occurs c acc.
Proof.
  revert acc. induction s as [|a s IH]; intros acc; simpl; [reflexivity|].
  rewrite IH. simpl. destruct (Ascii.eqb a c), (occurs c s), (occurs c acc); reflexivity.
Qed.

Lemma occurs_rev (c : ascii) (s : string) : occurs c (rev s) = occurs c s.
Proof. unfold rev. rewrite occurs_rev_acc. simpl. apply orb_false_r. Qed.

(** What [trimStart] leaves was in the text. *)
Lemma trimStart_occurs (c : ascii) (n : nat) :
  forall s, (String.length s <= n)%nat ->
            occurs c (trimStart s) = true -> occurs c s = true.
Proof.
  induction n as [|n IH]; intros s Hn.
  - destruct s; [trivial|simpl in Hn; lia].
  - destruct s as [|a r1]; [trivial|]. cbn [trimStart].
    assert (H1 : occurs c (trimStart r1) = true -> occurs c (String a r1) = true).
    { intros H. simpl. rewrite (IH r1) by (simpl in Hn; lia || assumption).
      apply orb_true_r. }
    destruct (ws1 a); [exact H1|].
    destruct r1 as [|b r2]; [trivial|].
    assert (H2 : occurs c (trimStart r2) = true
                 -> occurs c (String a (String b r2)) = true).
    { intros H. simpl. rewrite (IH r2) by (simpl in Hn; lia || assumption).
      now rewrite !orb_true_r. }
    destruct (ws2 a b); [exact H2|].
    destruct r2 as [|d r3]; [trivial|].
    destruct (ws3 a b d); [|trivial].
    intros H. simpl. rewrite (IH r3) by (simpl in Hn; lia || assumption).
    now rewrite !orb_true_r.
Qed.

Lemma trimStartRev_occurs (c : ascii) (n : nat) :
  forall s, (String.length s <= n)%nat ->
            occurs c (trimStartRev s) = true -> occurs c s = true.
Proof.
  induction n as [|n IH]; intros s Hn.
  - destruct s; [trivial|simpl in Hn; lia].
  - destruct s as [|a r1]; [trivial|]. cbn [trimStartRev].
    assert (H1 : occurs c (trimStartRev r1) = true -> occurs c (String a r1) = true).
    { intros H. simpl. rewrite (IH r1) by (simpl in Hn; lia || assumption).
      apply orb_true_r. }
    destruct (ws1 a); [exact H1|].
    destruct r1 as [|b r2]; [trivial|].
    assert (H2 : occurs c (trimStartRev r2) = true
                 -> occurs c (String a (String b r2)) = true).
    { intros H. simpl. rewrite (IH r2) by (simpl in Hn; lia || assumption).
      now rewrite !orb_true_r. }
    destruct (ws2 b a); [exact H2|].
    destruct r2 as [|d r3]; [trivial|].
    destruct (ws3 d b a); [|trivial].
    intros H. simpl. rewrite (IH r3) by (simpl in Hn; lia || assumption).
    now rewrite !orb_true_r.
Qed.

(** A character that is not in a line is not in the trimmed line. *)
Lemma trim_free (c : ascii) (s : string) :
  occurs c s = false -> occurs c (trim s) = false.
Proof.
  intros H. destruct (occurs c (trim s)) eqn:E; [|reflexivity].
  unfold trim, trimEnd in E. rewrite occurs_rev in E.
  apply (trimStartRev_occurs c _ _ (le_n _)) in E. rewrite occurs_rev in E.
  apply (trimStart_occurs c _ _ (le_n _)) in E. congruence.
Qed.

(** [span] cuts the text in two. *)
Lemma span_app (p : ascii -> bool) (s : string) :
  s = fst (span p s) ++ snd (span p s).
Proof.
  induction s as [|a s IH]; simpl; [reflexivity|].
  destruct (p a); [|reflexivity].
  destruct (span p s) as [x y]. simpl in *. now rewrite <- IH.
Qed.

(** [span] takes a run that passes the test and stops at a character that
    fails it. *)
Lemma span_run (p : ascii -> bool) (u : string) (c : ascii) (r : string) :
  every p u = true -> p c = false ->
  span p (u ++ String c r) = (u, String c r).
Proof.
  intros Hu Hc. induction u as [|a u IH]; simpl.
  - now rewrite Hc.
  - simpl in Hu. apply andb_true_iff in Hu. destruct Hu as [Ha Hu].
    now rewrite Ha, (IH Hu).
Qed.

(** The expression of line 293 can match only where the text has URI=. *)
Lemma matchUriHere_prefix (s : string) :
  startsWith "URI=" s = false -> matchUriHere s = None.
Proof.
  destruct s as [|c1 s]; [reflexivity|].
  destruct c1 as [[] [] [] [] [] [] [] []]; try reflexivity.
  destruct s as [|c2 s]; [reflexivity|].
  destruct c2 as [[] [] [] [] [] [] [] []]; try reflexivity.
  destruct s as [|c3 s]; [reflexivity|].
  destruct c3 as [[] [] [] [] [] [] [] []]; try reflexivity.
  destruct s as [|c4 s]; [reflexivity|].
  destruct c4 as [[] [] [] [] [] [] [] []]; try reflexivity.
  discriminate.
Qed.

(** What follows a match is a part of the text. *)
Lemma matchUriHere_rest (c : ascii) (s uri rest : string) :
  matchUriHere s = Some (uri, rest) ->
  occurs c s = false -> occurs c rest = false.
Proof.
  intros Hm Hs.
  destruct (startsWith "URI=" s) eqn:E;
    [|rewrite (matchUriHere_prefix s E) in Hm; discriminate].
  destruct s as [|c1 s]; [discriminate|].
  cbn [startsWith] in E. apply andb_true_iff in E. destruct E as [E1 E].
  destruct s as [|c2 s]; [discriminate|].
  apply andb_true_iff in E. destruct E as [E2 E].
  destruct s as [|c3 s]; [discriminate|].
  apply andb_true_iff in E. destruct E as [E3 E].
  destruct s as [|c4 s]; [discriminate|].
  apply andb_true_iff in E. destruct E as [E4 _].
  apply Ascii.eqb_eq in E1, E2, E3, E4. subst c1 c2 c3 c4.
  destruct s as [|o r]; [discriminate|].
  assert (Hr : occurs c r = false).
  { simpl in Hs. repeat (apply orb_false_iff in Hs; destruct Hs as [_ Hs]).
    exact Hs. }
  cbn [matchUriHere] in Hm. destruct (isQuote o); [|discriminate].
  pose proof (span_app (fun c => negb (isQuote c)) r) as Hsp.
  destruct (span (fun c => negb (isQuote c)) r) as [[|a u] [|b y]];
    try discriminate.
  injection Hm as <- <-. simpl in Hsp. rewrite Hsp in Hr.
  simpl in Hr. rewrite occurs_app in Hr. simpl in Hr.
  repeat (apply orb_false_iff in Hr; destruct Hr as [_ Hr]). exact Hr.
Qed.

(** The rewriting of a tag line puts no line feed into it. *)
Lemma replaceUri_free (f : string -> string) (s : string) :
  (forall u, occurs LF (f u) = false) ->
  occurs LF s = false -> occurs LF (replaceUri f s) = false.
Proof.
  intros Hf. induction s as [|a s IH]; intros Hs.
  - reflexivity.
  - cbn [replaceUri]. destruct (matchUriHere (String a s)) as [[uri rest]|] eqn:E.
    + pose proof (matchUriHere_rest LF _ _ _ E Hs) as Hr.
      rewrite occurs_app, occurs_app. unfold q. rewrite occurs_app.
      cbn [occurs]. rewrite Hf, Hr. reflexivity.
    + simpl in Hs. apply orb_false_iff in Hs. destruct Hs as [Ha Hs].
      cbn [occurs]. now rewrite Ha, IH.
Qed.

Lemma proxyLine_free (workerUrl url basePath targetReferer : string)
      (targetUrl : URL) (line : string) :
  occurs LF workerUrl = false ->
  occurs LF (proxyLine workerUrl url basePath targetReferer targetUrl line) = false.
Proof.
  intros Hw. unfold proxyLine.
  rewrite occurs_app, Hw. cbn [append occurs orb Ascii.eqb Bool.eqb].
  rewrite occurs_app, encodeURIComponent_free by reflexivity.
  cbn [append occurs orb Ascii.eqb Bool.eqb].
  now rewrite encodeURIComponent_free by reflexivity.
Qed.

Lemma rewriteLine_free (workerUrl url basePath targetReferer : string)
      (targetUrl : URL) (line : string) :
  occurs LF workerUrl = false ->
  occurs LF line = false ->
  occurs LF (rewriteLine (proxyLine workerUrl url basePath targetReferer targetUrl)
                         line) = false.
Proof.
  intros Hw Hl. unfold rewriteLine.
  destruct (isEmpty (trim line)); [exact Hl|].
  destruct (startsWith "#" (trim line)).
  - apply replaceUri_free; [intros u; now apply proxyLine_free|now apply trim_free].
  - now apply proxyLine_free.
Qed.

(** Rewriting keeps the lines of a manifest in their places: the rewritten
    text has as many lines as the manifest, and its line number i is the
    rewriting of line number i of the manifest.  The worker's own URL has
    no line feed in it. *)
Theorem rewriting_keeps_the_lines_in_place
        (workerUrl url targetReferer : string) (targetUrl : URL)
        (manifestText : string) :
  occurs LF workerUrl = false ->
  split LF (rewriteManifest workerUrl url targetReferer targetUrl manifestText)
  = map (rewriteLine (proxyLine workerUrl url (uptoLast "/" url)
                                targetReferer targetUrl))
        (split LF manifestText)
  /\ List.length
       (split LF (rewriteManifest workerUrl url targetReferer targetUrl manifestText))
     = List.length (split LF manifestText).
Proof.
  intros Hw.
  assert (H : split LF (rewriteManifest workerUrl url targetReferer targetUrl manifestText)
              = map (rewriteLine (proxyLine workerUrl url (uptoLast "/" url)
                                            targetReferer targetUrl))
                    (split LF manifestText)).
  { unfold rewriteManifest. apply split_join.
    - pose proof (split_nonempty LF manifestText).
      destruct (split LF manifestText); [congruence|discriminate].
    - apply Forall_map. eapply Forall_impl; [|apply split_free].
      intros line Hl. now apply rewriteLine_free. }
  split; [exact H|]. rewrite H. apply length_map.
Qed.

(** A text without URI= has no match. *)
Lemma replaceUri_none (f : string -> string) (s : string) :
  includes "URI=" s = false -> replaceUri f s = s.
Proof.
  induction s as [|a s IH]; intros H; [reflexivity|].
  cbn [includes] in H. apply orb_false_iff in H. destruct H as [H1 H2].
  cbn [replaceUri]. rewrite (matchUriHere_prefix _ H1). now rewrite IH.
Qed.

(** A tag line that has no URI= in it is handed on trimmed, and otherwise
    as it is. *)
Theorem tag_line_without_uri_is_only_trimmed
        (proxy : string -> string) (line : string) :
  startsWith "#" (trim line) = true ->
  includes "URI=" (trim line) = false ->
  rewriteLine proxy line = trim line.
Proof.
  intros Ht Hu. unfold rewriteLine.
  destruct (trim line) as [|c r] eqn:E; [discriminate|].
  simpl isEmpty. cbv iota. rewrite Ht. now apply replaceUri_none.
Qed.

(** No match begins in a text without URI= that is followed by URI=. *)
Lemma startsWith_before (a b : string) :
  a <> "" ->
  startsWith "URI=" a = false ->
  startsWith "URI=" (a ++ String "U" b) = false.
Proof.
  intros Ha H.
  destruct a as [|c1 [|c2 [|c3 [|c4 a]]]]; [congruence| | | |].
  - cbn [append startsWith]. change (Ascii.eqb "R" "U") with false.
    now rewrite andb_false_r.
  - cbn [append startsWith]. change (Ascii.eqb "I" "U") with false.
    now rewrite !andb_false_r.
  - cbn [append startsWith]. change (Ascii.eqb "=" "U") with false.
    now rewrite !andb_false_r.
  - cbn [append startsWith] in *. exact H.
Qed.

(** In a tag line the first URI attribute, and only it, is rewritten.  The
    line has no URI= before the attribute; the value is not empty, has no
    quote in it and stands between two quotes, each double or single.  The
    value is replaced by what [f] makes of it, between double quotes, and
    all the rest of the line stays. *)
Theorem first_uri_attribute_is_rewritten
        (f : string -> string) (pre u post : string) (o o2 : ascii) :
  includes "URI=" pre = false ->
  isQuote o = true ->
  isQuote o2 = true ->
  u <> "" ->
  every (fun c => negb (isQuote c)) u = true ->
  replaceUri f (pre ++ "URI=" ++ String o (u ++ String o2 post))
  = pre ++ "URI=" ++ q (f u) ++ post.
Proof.
  intros Hpre Ho Ho2 Hu Hq. induction pre as [|c pre IH].
  - cbn [append replaceUri matchUriHere]. rewrite Ho.
    rewrite span_run by (try assumption; now rewrite Ho2).
    destruct u as [|a u]; [congruence|]. reflexivity.
  - cbn [includes] in Hpre. apply orb_false_iff in Hpre.
    destruct Hpre as [H1 H2].
    change ((String c pre ++ "URI=" ++ String o (u ++ String o2 post)))
      with (String c (pre ++ String "U" ("RI=" ++ String o (u ++ String o2 post)))).
    cbn [replaceUri].
    rewrite (matchUriHere_prefix
               (String c (pre ++ String "U" ("RI=" ++ String o (u ++ String o2 post))))).
    + cbn [append]. f_equal. apply IH. exact H2.
    + apply (startsWith_before (String c pre)); [discriminate|exact H1].
Qed.

End RewriterMore.

(** ** More about the handler *)

Module WorkerMore.

Import Str Worker Spec Every WorkerFacts.
Local Open Scope string_scope.

(** The run [span] takes passes the test. *)
Lemma span_every (p : ascii -> bool) (s : string) :
  every p (fst (span p s)) = true.
Proof.
  induction s as [|a s IH]; simpl; [reflexivity|].
  destruct (p a) eqn:E; [|reflexivity].
  destruct (span p s) as [x y]. simpl in *. now rewrite E, IH.
Qed.

(** What the expression of line 184 captures: at least 64 lower-case
    hexadecimal digits that stand between two slashes of the path. *)
Lemma videoIdMatch_sound (s id : string) :
  videoIdMatch s = Some id ->
  every isLowerHex id = true
  /\ (64 <= String.length id)%nat
  /\ exists pre post, s = pre ++ "/" ++ id ++ "/" ++ post.
Proof.
  induction s as [|c s IH]; [discriminate|].
  cbn [videoIdMatch].
  assert (Hrec : videoIdMatch s = Some id ->
                 every isLowerHex id = true
                 /\ (64 <= String.length id)%nat
                 /\ exists pre post, String c s = pre ++ "/" ++ id ++ "/" ++ post).
  { intros H. destruct (IH H) as (H1 & H2 & pre & post & E).
    split; [exact H1|]. split; [exact H2|].
    exists (String c pre), post. simpl. now rewrite E. }
  destruct (Ascii.eqb c "/") eqn:Ec; [|exact Hrec].
  pose proof (RewriterMore.span_app isLowerHex s) as Hsp.
  pose proof (span_every isLowerHex s) as Hev.
  destruct (span isLowerHex s) as [run rest]. simpl in Hsp, Hev.
  destruct ((64 <=? Z.of_nat (String.length run))%Z && startsWith "/" rest) eqn:E;
    [|exact Hrec].
  intros [= <-]. apply andb_true_iff in E. destruct E as [E1 E2].
  split; [exact Hev|]. split; [apply Z.leb_le in E1; lia|].
  destruct rest as [|d post]; [discriminate|].
  cbn [startsWith] in E2. apply andb_true_iff in E2. destruct E2 as [E2 _].
  apply Ascii.eqb_eq in E2. subst d. apply Ascii.eqb_eq in Ec. subst c.
  exists "", post. simpl. now rewrite Hsp.
Qed.

(** The referer policy for every host but cdn.dotstream.buzz.  A request
    that names no referer, an empty one, or the bare origin
    https://megacloud.tv (with or without the slash) gets
    https://megacloud.tv/embed-2/e-1/ followed by nothing or by a run of at
    least 64 lower-case hexadecimal digits that stands between two slashes
    of the target path; any other referer the request names is used as it
    is. *)
Theorem referer_is_the_embed_page_or_the_one_given
        (referer : option string) (targetUrl : URL) :
  String.eqb (hostname targetUrl) "cdn.dotstream.buzz" = false ->
  let given := orElse referer "https://megacloud.tv/" in
  let bare := String.eqb given "https://megacloud.tv"
              || String.eqb given "https://megacloud.tv/" in
  (bare = false -> targetRefererOf referer targetUrl = given)
  /\ (bare = true ->
      exists id,
        targetRefererOf referer targetUrl = "https://megacloud.tv/embed-2/e-1/" ++ id
        /\ (id = ""
            \/ (every isLowerHex id = true
                /\ (64 <= String.length id)%nat
                /\ exists pre post,
                    pathname targetUrl = pre ++ "/" ++ id ++ "/" ++ post))).
Proof.
  intros Hh given bare. unfold targetRefererOf. rewrite Hh.
  fold given. fold bare. split; intros Hb; rewrite Hb; [reflexivity|].
  destruct (videoIdMatch (pathname targetUrl)) as [id|] eqn:E.
  - exists id. split; [reflexivity|]. right. now apply videoIdMatch_sound.
  - exists "". split; [|now left]. now rewrite StrFacts.append_nil_r.
Qed.

Section Platform.

Variable Stream : Type.
Variable parseURL : string -> Result URL.
Variable text : option Stream -> Result string.
Variable socketFetch :
  string -> list (string * string) -> Result (SocketResponse Stream).
Variable globalFetch :
  string -> list (string * string) -> Result (NativeResponse Stream).

Local Abbreviation fetch := (fetch Stream parseURL text socketFetch globalFetch).
Local Abbreviation upstream := (upstream Stream socketFetch globalFetch).
Local Abbreviation pipeline := (pipeline Stream text).
Local Abbreviation failed := (Spec.failed Stream).


(** Whenever the pipeline returns a response, the response has the status
    of the upstream answer, and every upstream header is still there with
    its value, those apart that the pipeline sets
    (Access-Control-Allow-Origin, X-Proxy-Version) or strips
    (Content-Security-Policy, X-Frame-Options) and the content type.  The
    content type is the upstream's where the upstream names one; where it
    names none, a response whose body is a text (the upstream error and
    the rewritten playlist) has the content type of a string body,
    text/plain;charset=UTF-8, and any other response has none. *)
Theorem status_and_other_headers_pass_through
        (req : Request) (url targetReferer : string) (targetUrl : URL)
        (up : Upstream Stream) (r : Response Stream) (name : string) :
  pipeline req url targetReferer targetUrl up = Ok r ->
  Headers.same "Access-Control-Allow-Origin" name = false ->
  Headers.same "X-Proxy-Version" name = false ->
  Headers.same "Content-Security-Policy" name = false ->
  Headers.same "X-Frame-Options" name = false ->
  Headers.same "Content-Type" name = false ->
  status Stream r = u_status Stream up
  /\ Headers.get (headers Stream r) name = Headers.get (u_headers Stream up) name
  /\ Headers.get (headers Stream r) "Content-Type"
     = match Headers.get (u_headers Stream up) "Content-Type" with
       | Some v => Some v
       | None =>
           if isString Stream (body Stream r)
           then Some "text/plain;charset=UTF-8" else None
       end.
Proof.
  intros Hp H1 H2 H3 H4 H5.
  assert (Hm : forall n,
             Headers.same "Access-Control-Allow-Origin" n = false ->
             Headers.same "X-Proxy-Version" n = false ->
             Headers.same "Content-Security-Policy" n = false ->
             Headers.same "X-Frame-Options" n = false ->
             Headers.get (if failed up then marked (u_headers Stream up)
                          else stripped (u_headers Stream up)) n
             = Headers.get (u_headers Stream up) n).
  { intros n Ha Hb Hc Hd.
    assert (E : Headers.get (marked (u_headers Stream up)) n
                = Headers.get (u_headers Stream up) n)
      by (unfold marked; now rewrite !HeadersFacts.get_set_other).
    destruct (failed up); [exact E|]. now rewrite stripped_get. }
  split; [now apply (pipeline_status Stream text _ _ _ _ _ _ Hp)|]. split.
  - rewrite (pipeline_headers Stream text _ _ _ _ _ _ name Hp H5).
    now apply Hm.
  - destruct (pipeline_given Stream text _ _ _ _ _ _ Hp) as [b Hb].
    rewrite (Response_new_content_type Stream _ _ _ _ Hb).
    now rewrite Hm by reflexivity.
Qed.

(** An upstream answer that is no success is passed on with its own
    status: the response has that status, the text Upstream error and the
    status in decimal as its body, and the upstream headers with the two
    the pipeline sets and, where the upstream names no content type, the
    content type of the text.  The upstream body is not read: the response
    does not depend on what reading it would give.  (The status is one the
    platform builds a response with: in 200..599 and no null-body
    status.) *)
Theorem upstream_failure_keeps_its_status
        (req : Request) (url : string) (targetUrl refererUrl : URL)
        (up : Upstream Stream) :
  String.eqb (method req) "OPTIONS" = false ->
  param_url req = Some url ->
  isEmpty url = false ->
  parseURL url = Ok targetUrl ->
  parseURL (targetRefererOf (param_referer req) targetUrl) = Ok refererUrl ->
  upstream url targetUrl
           (headersMap (targetRefererOf (param_referer req) targetUrl) req) = Ok up ->
  u_ok Stream up = false ->
  u_status Stream up <> 206%Z ->
  (200 <= u_status Stream up <= 599)%Z ->
  nullBodyStatus (u_status Stream up) = false ->
  snd (fetch req)
  = {| status := u_status Stream up;
       headers :=
         if Headers.has (u_headers Stream up) "Content-Type"
         then marked (u_headers Stream up)
         else (marked (u_headers Stream up)
               ++ [("content-type", "text/plain;charset=UTF-8")])%list;
       body := Text Stream ("Upstream error " ++ showStatus (u_status Stream up)) |}.
Proof.
  intros Hm Hu He Hp Hr Hup Hok H206 Hs Hn.
  rewrite (fetch_proxied Stream parseURL text socketFetch globalFetch
             req url targetUrl refererUrl Hm Hu He Hp Hr).
  cbv zeta. simpl snd. rewrite Hup, pipeline_paths.
  unfold Spec.failed. rewrite Hok.
  replace (u_status Stream up =? 206)%Z with false
    by (symmetry; now apply Z.eqb_neq).
  simpl. rewrite Response_new_accepts by auto. f_equal.
  unfold withType. cbn [isString andb].
  assert (E : Headers.has (marked (u_headers Stream up)) "Content-Type"
              = Headers.has (u_headers Stream up) "Content-Type").
  { rewrite !HeadersFacts.has_get. unfold marked.
    now rewrite !HeadersFacts.get_set_other by reflexivity. }
  rewrite E. now destruct (Headers.has (u_headers Stream up) "Content-Type").
Qed.

End Platform.

End WorkerMore.

(** ** Instances of the further properties *)

Module MoreInstances.

Import Str Uri Worker Spec Demo.
Local Open Scope string_scope.

(** A manifest of three lines, the last one empty, is rewritten to three
    lines. *)
Lemma three_lines_stay_three_lines :
  List.length
    (split LF (rewriteManifest workerUrl manifestUrl embed manifestTarget
                               (Demo.lines ["#EXTM3U"; "seg-1.ts"; ""])))
  = 3%nat.
Proof.
  destruct (RewriterMore.rewriting_keeps_the_lines_in_place
              workerUrl manifestUrl embed manifestTarget
              (Demo.lines ["#EXTM3U"; "seg-1.ts"; ""]) eq_refl) as [_ E].
  exact E.
Defined.

(** The end tag of a playlist loses the blanks around it and nothing
    else. *)
Lemma endlist_tag_is_trimmed :
  rewriteLine (proxyLine workerUrl manifestUrl (uptoLast "/" manifestUrl)
                         embed manifestTarget)
              "  #EXT-X-ENDLIST "
  = "#EXT-X-ENDLIST".
Proof.
  exact (RewriterMore.tag_line_without_uri_is_only_trimmed
           (proxyLine workerUrl manifestUrl (uptoLast "/" manifestUrl)
                      embed manifestTarget)
           "  #EXT-X-ENDLIST " eq_refl eq_refl).
Defined.

(** The key of a key tag, written between single quotes, comes back
    between double quotes and resolved; method and vector stay. *)
Lemma key_uri_between_single_quotes :
  let proxy := proxyLine workerUrl manifestUrl (uptoLast "/" manifestUrl)
                         embed manifestTarget in
  replaceUri proxy ("#EXT-X-KEY:METHOD=AES-128,"
                    ++ "URI=" ++ String "'" ("key.bin" ++ String "'" ",IV=0x01"))
  = "#EXT-X-KEY:METHOD=AES-128," ++ "URI=" ++ q (proxy "key.bin") ++ ",IV=0x01".
Proof.
  intros proxy.
  exact (RewriterMore.first_uri_attribute_is_rewritten
           proxy "#EXT-X-KEY:METHOD=AES-128," "key.bin" ",IV=0x01" "'" "'"
           eq_refl eq_refl eq_refl ltac:(discriminate) eq_refl).
Defined.

(** A referer the request names is the one sent upstream. *)
Lemma named_referer_is_used :
  targetRefererOf (Some "https://site.example/watch") manifestTarget
  = "https://site.example/watch".
Proof.
  pose proof (WorkerMore.referer_is_the_embed_page_or_the_one_given
                (Some "https://site.example/watch") manifestTarget eq_refl) as H.
  cbv zeta in H. destruct H as [H _]. exact (H eq_refl).
Defined.

(** A playlist that the upstream sends without a content type: status and
    Cache-Control reach the client, and the rewritten text brings the
    content type of a string. *)
Lemma playlist_without_content_type :
  let up := mkUpstream Demo.Stream 200 [("Cache-Control", "no-cache")]
                       true (Some "seg-1.ts") in
  exists r,
    pipeline Demo.Stream Demo.text (Demo.get manifestUrl None)
             manifestUrl embed manifestTarget up = Ok r
    /\ status Demo.Stream r = 200%Z
    /\ Headers.get (headers Demo.Stream r) "Cache-Control" = Some "no-cache"
    /\ Headers.get (headers Demo.Stream r) "Content-Type"
       = Some "text/plain;charset=UTF-8".
Proof.
  intros up. eexists. split; [reflexivity|].
  exact (WorkerMore.status_and_other_headers_pass_through
           Demo.Stream Demo.text (Demo.get manifestUrl None)
           manifestUrl embed manifestTarget up _
           "Cache-Control" eq_refl eq_refl eq_refl eq_refl eq_refl eq_refl).
Defined.

(** An upstream 404 without a content type comes back as a 404 of type
    text/plain. *)
Lemma upstream_404_is_a_404 :
  snd (Demo.fetch 404 [("Server", "cdn")] "gone" (Demo.get manifestUrl None))
  = {| status := 404;
       headers := [("Server", "cdn");
                   ("Access-Control-Allow-Origin", "*");
                   ("X-Proxy-Version", "1.2.1-no-origin");
                   ("content-type", "text/plain;charset=UTF-8")];
       body := Text Demo.Stream "Upstream error 404" |}.
Proof.
  refine (WorkerMore.upstream_failure_keeps_its_status
            Demo.Stream Demo.parse Demo.text
            (Demo.socketAnswers 404 [("Server", "cdn")] "gone")
            (Demo.nativeAnswers 404 [("Server", "cdn")] "gone")
            (Demo.get manifestUrl None) manifestUrl manifestTarget
            {| hostname := "megacloud.tv"; port := "";
               pathname := "/embed-2/e-1/"; origin := "https://megacloud.tv" |}
            (mkUpstream Demo.Stream 404 [("Server", "cdn")] false (Some "gone"))
            eq_refl eq_refl eq_refl eq_refl eq_refl eq_refl eq_refl _ _ eq_refl).
  - discriminate.
  - vm_compute. split; discriminate.
Defined.

End MoreInstances.
(** ** Facts about socketFetch *)

Module SocketFacts.

Import Str U8 U8Facts Utf8 Utf8Facts Http Every Socket StrFacts.
Local Open Scope string_scope.


Lemma startsWith_app_l (p a b : string) :
  startsWith p a = true -> startsWith p (a ++ b) = true.
Proof.
  revert a. induction p as [|x p IH]; intros a H; [reflexivity|].
  destruct a as [|y a]; [discriminate|].
  cbn [append startsWith] in *. apply andb_true_iff in H.
  destruct H as [H1 H2]. rewrite H1. now apply IH.
Qed.


Lemma includes_start (p s : string) :
  startsWith p s = true -> includes p s = true.
Proof. intros H. destruct s; simpl; now rewrite H. Qed.

Lemma includes_app_l (p a b : string) :
  includes p a = true -> includes p (a ++ b) = true.
Proof.
  induction a as [|c a IH]; intros H.
  - cbn [includes] in H. rewrite orb_false_r in H.
    apply includes_start. now apply startsWith_app_l.
  - cbn [includes] in H. apply orb_true_iff in H. destruct H as [H|H].
    + apply includes_start. now apply startsWith_app_l.
    + cbn [append includes]. rewrite (IH H). apply orb_true_r.
Qed.

Lemma before_none (p s : string) :
  includes p s = false -> before p s = None.
Proof.
  induction s as [|c s IH]; cbn [includes before]; intros H;
    apply orb_false_iff in H; destruct H as [H1 H2]; rewrite H1;
    [reflexivity|].
  now rewrite IH.
Qed.


Lemma prop_deleteProp (o : Js.object) (k : string) :
  Js.prop (Js.deleteProp o k) k = None.
Proof.
  induction o as [|[k' v] o IH]; [reflexivity|].
  unfold Js.deleteProp in *. cbn [filter fst].
  destruct (String.eqb k' k) eqn:E; cbn [negb]; [exact IH|].
  cbn [Js.prop]. now rewrite E.
Qed.

(** A proper prefix of a head: no empty line to be seen yet. *)
Lemma prefix_no_head (p q : bytes) (s : string) :
  (p ++ q)%list = encode s ->
  every isAscii s = true ->
  includes CRLF2 s = false ->
  before CRLF2 (decode true p) = None.
Proof.
  intros E Ha Hi. pose proof (encode_low s Ha) as Hl.
  rewrite <- E in Hl. apply Forall_app in Hl. destruct Hl as [Hp _].
  rewrite (decode_low true _ Hp). apply before_none.
  destruct (includes CRLF2 (string_of_list_byte p)) eqn:X; [|reflexivity].
  apply (includes_app_l _ _ (string_of_list_byte q)) in X.
  rewrite <- string_of_list_byte_app, E in X. unfold encode in X.
  rewrite string_of_list_byte_of_string in X. congruence.
Qed.





(** *** Numbers in decimal *)












(** *** Lines *)





Section Net.

Variable parseURL : string -> Result Target.
Variable connect : string -> Z -> bytes -> Result Wire.
Variable toLowerCase : string -> string.
Variable unread : nat.

Local Abbreviation parseHead := (parseHead toLowerCase).
Local Abbreviation readHead := (readHead toLowerCase).
Local Abbreviation socketFetch := (socketFetch parseURL connect toLowerCase unread).
Local Abbreviation finish := (finish unread).
Local Abbreviation answer := (answer unread).


(** A read with which it is not there yet. *)
Lemma readHead_on (acc value q : bytes) (vs : list bytes) (s : string) :
  ((acc ++ value) ++ q)%list = encode s ->
  every isAscii s = true ->
  includes CRLF2 s = false ->
  readHead (value :: vs) acc = readHead vs (acc ++ value)%list.
Proof.
  intros E Ha Hi. cbn [Socket.readHead].
  now rewrite (prefix_no_head _ _ _ E Ha Hi).
Qed.


(** No head at all. *)
Lemma readHead_none (values : list bytes) :
  forall (acc : bytes) (total : string),
    every isAscii total = true ->
    includes CRLF2 total = false ->
    (acc ++ List.concat values)%list = encode total ->
    readHead values acc = NoHead (encode total).
Proof.
  induction values as [|value vs IH]; intros acc total Ha Hi E.
  - simpl in E. rewrite app_nil_r in E. now subst.
  - cbn [List.concat] in E. rewrite app_assoc in E.
    rewrite (readHead_on acc value _ vs total E Ha Hi).
    now apply IH.
Qed.



Lemma finish_never_chunked (hs : Js.object) (b : ByteStream) :
  Js.prop (fst (finish hs b)) "transfer-encoding" <> Some "chunked".
Proof.
  unfold Socket.finish. destruct (Js.prop hs "transfer-encoding") as [te|] eqn:P.
  - destruct (String.eqb te "chunked") eqn:E; cbn [fst].
    + now rewrite prop_deleteProp.
    + rewrite P. intros [= ->]. discriminate.
  - cbn [fst]. now rewrite P.
Qed.

(** The [Headers] made of a header object hold its names and values. *)
Lemma Headers_new_ok (o : Js.object) (h : Headers.t) :
  Headers_new o = Ok h -> h = o.
Proof.
  revert h. induction o as [|[name value] o IH]; intros h; simpl.
  - now intros [= <-].
  - destruct (negb (validName name)); [discriminate|].
    destruct (negb (validValue value)); [discriminate|].
    destruct (Headers_new o) as [h'|]; [|discriminate].
    intros [= <-]. now rewrite (IH h' eq_refl).
Qed.

Lemma answer_never_chunked (s : Z) (hs : Js.object) (b : ByteStream) (a : Answer) :
  answer s hs b = Ok a ->
  Js.prop (responseHeaders a) "transfer-encoding" <> Some "chunked".
Proof.
  unfold Socket.answer. pose proof (finish_never_chunked hs b) as H.
  destruct (Socket.finish unread hs b) as [o b']. cbn [fst] in H.
  destruct (Headers_new o) as [h|] eqn:E; [|discriminate].
  intros [= <-]. cbn [responseHeaders].
  now rewrite (Headers_new_ok _ _ E).
Qed.



(** *** The request *)

Lemma fold_lines (fields : list (string * string)) :
  forall acc,
    fold_left (fun acc kv => acc ++ fst kv ++ ": " ++ snd kv ++ CRLF) fields acc
    = acc ++ fieldLines fields.
Proof.
  induction fields as [|kv fields IH]; intros acc.
  - simpl. now rewrite append_nil_r.
  - cbn [fold_left fieldLines]. rewrite IH. unfold headerLine.
    now rewrite !append_assoc.
Qed.

Lemma requestStr_lines (path : string) (fields : list (string * string)) :
  requestStr path fields
  = "GET " ++ path ++ " HTTP/1.1" ++ CRLF ++ fieldLines fields ++ CRLF.
Proof. unfold requestStr. now rewrite fold_lines. Qed.

Lemma fieldLines_app (a b : list (string * string)) :
  fieldLines (a ++ b) = fieldLines a ++ fieldLines b.
Proof.
  induction a as [|kv a IH]; [reflexivity|].
  cbn [app fieldLines]. now rewrite IH, !append_assoc.
Qed.

(** *** Header lines *)




End Net.

End SocketFacts.

(** ** Properties of socketFetch *)

Module SocketMore.

Import Str U8 U8Facts Utf8Facts Http Every Socket StrFacts SocketFacts.
Local Open Scope string_scope.




Section Net.

Variable parseURL : string -> Result Target.
Variable connect : string -> Z -> bytes -> Result Wire.
Variable toLowerCase : string -> string.
Variable unread : nat.

Local Abbreviation parseHead := (parseHead toLowerCase).
Local Abbreviation socketFetch := (socketFetch parseURL connect toLowerCase unread).
Local Abbreviation request target headers :=
  (encode (requestStr (pathname target ++ search target)
                      (withDefaults target headers))).



(** A peer that never sends an empty line.  What it sends is ASCII without
    an empty line.  When the connection then ends, the answer is a 200
    without headers whose body is everything that was read, in one piece;
    when a read fails, [socketFetch] throws the failure. *)
Theorem answer_without_an_empty_line_is_a_200
        (url : string) (headers : Js.object) (targetUrl : Target)
        (wire : Wire) (total : string) :
  parseURL url = Ok targetUrl ->
  connect (hostname targetUrl) (portOf targetUrl) (request targetUrl headers)
  = Ok wire ->
  List.concat (reads wire) = encode total ->
  every isAscii total = true ->
  includes CRLF2 total = false ->
  socketFetch url headers
  = match failure wire with
    | Some m => Throws m
    | None =>
        Ok {| status := 200; responseHeaders := [];
              body := {| chunks := first (encode total); ending := None |} |}
    end.
Proof.
  intros Hp Hc Hr Ha Hi. unfold Socket.socketFetch. rewrite Hp, Hc.
  rewrite (readHead_none toLowerCase (reads wire) [] total Ha Hi Hr).
  destruct (failure wire); reflexivity.
Qed.

(** No answer of [socketFetch] says transfer-encoding: chunked: where the
    head said so, in these very letters, the body is decoded and the header
    deleted. *)
Theorem no_answer_says_chunked
        (url : string) (headers : Js.object) (a : Answer) :
  socketFetch url headers = Ok a ->
  Js.prop (responseHeaders a) "transfer-encoding" <> Some "chunked".
Proof.
  unfold Socket.socketFetch.
  destruct (parseURL url) as [t|]; [|discriminate].
  destruct (connect _ _ _) as [w|]; [|discriminate].
  destruct (Socket.readHead _ _ _) as [l|s hs l r].
  - destruct (failure w); [discriminate|]. apply answer_never_chunked.
  - apply answer_never_chunked.
Qed.


(** The request that goes out on the raw socket for the handler: the
    request line, the headers of the handler one per line and as they are,
    then Host with the host of the target and Connection: close, then the
    empty line.  (No header of the handler is named Host or Connection,
    whatever the request, so the two are always added, and last.) *)
Theorem request_on_the_raw_socket
        (targetUrl : Target) (targetReferer : string) (req : Worker.Request) :
  let headersMap := Worker.headersMap targetReferer req in
  let path := pathname targetUrl ++ search targetUrl in
  withDefaults targetUrl headersMap
  = (headersMap ++ [("Host", host targetUrl); ("Connection", "close")])%list
  /\ requestStr path (withDefaults targetUrl headersMap)
     = "GET " ++ path ++ " HTTP/1.1" ++ CRLF
       ++ fieldLines headersMap
       ++ "Host: " ++ host targetUrl ++ CRLF
       ++ "Connection: close" ++ CRLF
       ++ CRLF.
Proof.
  intros headersMap path.
  assert (E : withDefaults targetUrl headersMap
              = (headersMap ++ [("Host", host targetUrl); ("Connection", "close")])%list).
  { unfold headersMap, Worker.headersMap, withDefaults.
    destruct (Worker.truthy (Worker.header_Range req));
      destruct (Worker.truthy (Worker.header_XRequestedWith req)); reflexivity. }
  split; [exact E|]. rewrite E, requestStr_lines, fieldLines_app.
  unfold headerLine. cbn [fieldLines fst snd].
  now rewrite !append_assoc.
Qed.


End Net.

End SocketMore.

(** ** Instances of the properties of socketFetch *)

Module SocketInstances.

Import Str U8 Http Socket.
Local Open Scope string_scope.



(** A peer that sends a status line and closes. *)
Lemma status_line_alone_is_served_as_the_body :
  let wire := {| reads := [Demo.b "HTTP/1.1 503 Busy"]; failure := None |} in
  SocketDemo.socketFetch wire []
  = Ok {| status := 200; responseHeaders := [];
          body := {| chunks := [Demo.b "HTTP/1.1 503 Busy"]; ending := None |} |}.
Proof.
  intros wire.
  exact (SocketMore.answer_without_an_empty_line_is_a_200
           SocketDemo.parseURL (SocketDemo.answers wire) Headers.lower 0
           SocketDemo.url [] SocketDemo.target wire "HTTP/1.1 503 Busy"
           eq_refl eq_refl eq_refl eq_refl eq_refl).
Defined.

(** The value Chunked, with a capital, is not the one looked for: the
    header stays, and so does the encoding of the body. *)
Lemma capital_chunked_is_left_alone :
  let head := SocketDemo.ok [("Transfer-Encoding", "Chunked")] in
  let wire :=
    {| reads := [ (encode (head ++ CRLF2) ++ Chunked.encode [Demo.b "abc"])%list ];
       failure := None |} in
  SocketDemo.socketFetch wire []
  = Ok {| status := 200;
          responseHeaders := [("transfer-encoding", "Chunked")];
          body := {| chunks := [Chunked.encode [Demo.b "abc"]]; ending := None |} |}
  /\ Js.prop [("transfer-encoding", "Chunked")] "transfer-encoding"
     <> Some "chunked".
Proof.
  intros head wire. split; [reflexivity|].
  exact (SocketMore.no_answer_says_chunked
           SocketDemo.parseURL (SocketDemo.answers wire) Headers.lower 0
           SocketDemo.url [] _ eq_refl).
Defined.



End SocketInstances.
